(** * pwa-sales-app: the offline cache worker and the page-transition handler

    A shallow embedding of the two client-side scripts of the application,
    [static/js/service-worker.js] and [static/js/main.js], together with the
    part of the browser they talk to (Cache Storage, the network, the DOM
    elements a click consults, the timer queue), and the properties of the
    handlers that the specification states. *)

From Stdlib Require Import Ascii.
From stdpp Require Import base decidable option list strings gmap.

Open Scope string_scope.
Open Scope list_scope.
Open Scope nat_scope.

(** ** The offline cache worker (service-worker.js) *)

Module ServiceWorker.

(** *** Constants of the script *)

(** [const CACHE_NAME = 'pwa-sales-app-v1';] *)
Definition CACHE_NAME : string := "pwa-sales-app-v1".

(** The array literal bound to [URLS_TO_CACHE] when the script is evaluated. *)
Definition URLS_TO_CACHE : list string :=
  [ "/";
    "/input";
    "/report";
    "/settings";
    "/performance";
    "/static/css/style.css";
    "/static/js/main.js";
    "/static/js/service-worker.js";
    "/static/image/icon-192.png";
    "/static/image/icon-512.png" ].

(** The static assets are the entries under [/static/]. *)
Definition is_static_asset (u : string) : Prop :=
  String.prefix "/static/" u = true.

Global Instance is_static_asset_dec u : Decision (is_static_asset u).
Proof. unfold is_static_asset. apply _. Defined.

(** *** The host: requests, responses, Cache Storage, the network *)

Record Request := { method : string; url : string }.

Record Response := { status : nat; body : string }.

(** [Response.ok]: the status is in the range 200..299. *)
Definition ok (r : Response) : bool :=
  (200 <=? status r) && (status r <=? 299).

(** The request [cache.addAll] builds for a URL string. *)
Definition GET (u : string) : Request := {| method := "GET"; url := u |}.

(** A URL with its fragment left out: what comes before the first [#]. The
    caches compare URLs this way, so [/] and [/#top] are the same entry. *)
Fixpoint without_fragment (u : string) : string :=
  match u with
  | EmptyString => EmptyString
  | String a rest =>
      if Ascii.eqb a "#"%char then EmptyString
      else String a (without_fragment rest)
  end.

(** What [cache.addAll] takes for a response it can store: the status is
    [ok] and is not 206 (Partial Content). *)
Definition addAll_accepts (r : Response) : bool :=
  ok r && negb (status r =? 206).

(** A cache maps the URL of a GET request, its fragment left out, to the
    stored response; Cache Storage is the list of the named caches, in the
    order of their creation (the order [caches.keys()] lists them and
    [caches.match] searches them). *)
Abbreviation Cache := (gmap string Response).
Abbreviation CacheStorage := (list (string * gmap string Response)).

(** What the worker can see and change: the array object its constant
    [URLS_TO_CACHE] is bound to (a [const] binding fixes the binding, the array
    itself is an ordinary mutable object), the origin's Cache Storage, the
    network (the response to a request, [None] when the fetch fails) and the
    requests sent to the network so far, oldest first. *)
Record World := {
  urls_to_cache : list string;
  caches : CacheStorage;
  network : Request → option Response;
  requested : list Request
}.

Definition with_caches (cs : CacheStorage) (w : World) : World :=
  {| urls_to_cache := urls_to_cache w; caches := cs;
     network := network w; requested := requested w |}.

Definition with_requested (rs : list Request) (w : World) : World :=
  {| urls_to_cache := urls_to_cache w; caches := caches w;
     network := network w; requested := rs |}.

(** The worker's world once the script has been evaluated. *)
Definition script_evaluated (cs : CacheStorage)
    (net : Request → option Response) : World :=
  {| urls_to_cache := URLS_TO_CACHE; caches := cs;
     network := net; requested := [] |}.

(** *** Promises

    A promise is run to its settlement: it is fulfilled with a value or
    rejected, and it may change the world on the way. *)

Inductive Settled (A : Type) : Type :=
  | Fulfilled (a : A)
  | Rejected.
Arguments Fulfilled {A} a.
Arguments Rejected {A}.

Definition Promise (A : Type) : Type := World → Settled A * World.

Definition resolve {A} (a : A) : Promise A := λ w, (Fulfilled a, w).

(** [p.then(f)]: [f] runs on the value [p] is fulfilled with; a rejection of
    [p] is passed on and [f] does not run. *)
Definition then_ {A B} (p : Promise A) (f : A → Promise B) : Promise B :=
  λ w, match p w with
       | (Fulfilled a, w') => f a w'
       | (Rejected, w') => (Rejected, w')
       end.

Notation "p '.then(' x '=>' k ')'" := (then_ p (λ x, k))
  (at level 1, x name, k at level 200,
   format "p '.then(' x  '=>'  k ')'").

(** [Promise.all(ps)]: every promise of the list has been started, so all of
    them run; the result is the list of their values, or a rejection when one
    of them rejects. *)
Fixpoint Promise_all {A} (ps : list (Promise A)) : Promise (list A) :=
  match ps with
  | [] => resolve []
  | p :: ps' =>
      λ w, match p w with
           | (Fulfilled a, w') =>
               match Promise_all ps' w' with
               | (Fulfilled l, w'') => (Fulfilled (a :: l), w'')
               | (Rejected, w'') => (Rejected, w'')
               end
           | (Rejected, w') => (Rejected, snd (Promise_all ps' w'))
           end
  end.

(** *** Cache Storage operations *)

Definition cache_names (cs : CacheStorage) : list string := cs.*1.

(** The cache called [name], when there is one. *)
Fixpoint find_cache (name : string) (cs : CacheStorage) : option Cache :=
  match cs with
  | [] => None
  | (n, c) :: cs' => if decide (n = name) then Some c else find_cache name cs'
  end.

(** Replace the contents of the cache called [name]. *)
Fixpoint set_cache (name : string) (c : Cache) (cs : CacheStorage)
    : CacheStorage :=
  match cs with
  | [] => []
  | (n, c0) :: cs' =>
      if decide (n = name) then (n, c) :: cs'
      else (n, c0) :: set_cache name c cs'
  end.

(** [caches.open(name)]: the cache is created, empty, when there is none of
    that name; the promise is fulfilled with the cache (here its name). *)
Definition caches_open (name : string) : Promise string :=
  λ w, match find_cache name (caches w) with
       | Some _ => (Fulfilled name, w)
       | None => (Fulfilled name, with_caches (caches w ++ [(name, ∅)]) w)
       end.

(** [caches.keys()] *)
Definition caches_keys : Promise (list string) :=
  λ w, (Fulfilled (cache_names (caches w)), w).

(** [caches.delete(name)]: fulfilled with [true] when a cache was deleted. *)
Definition caches_delete (name : string) : Promise bool :=
  λ w, match find_cache name (caches w) with
       | Some _ =>
           (Fulfilled true,
            with_caches (filter (λ nc, nc.1 ≠ name) (caches w)) w)
       | None => (Fulfilled false, w)
       end.

(** The first response stored under the key [u] in the caches, in creation
    order. *)
Fixpoint match_all (u : string) (cs : CacheStorage) : option Response :=
  match cs with
  | [] => None
  | (_, c) :: cs' =>
      match c !! u with
      | Some r => Some r
      | None => match_all u cs'
      end
  end.

(** [caches.match(request)]: fulfilled with the stored response or with
    [undefined] (here [None]); only GET requests have entries, and the URL is
    compared with its fragment left out. *)
Definition caches_match (request : Request) : Promise (option Response) :=
  λ w, if decide (method request = "GET")
       then (Fulfilled
               (match_all (without_fragment (url request)) (caches w)), w)
       else (Fulfilled None, w).

(** [fetch(request)]: the request goes to the network; the promise is
    rejected when the network gives no response. *)
Definition fetch (request : Request) : Promise Response :=
  λ w, let w' := with_requested (requested w ++ [request]) w in
       match network w request with
       | Some r => (Fulfilled r, w')
       | None => (Rejected, w')
       end.

(** The responses [cache.addAll] collects: one per URL, each of them one it
    accepts, paired with the key it will be stored under; [None] as soon as
    one fetch fails or brings a response it does not accept. *)
Fixpoint fetch_all (net : Request → option Response) (urls : list string)
    : option (list (string * Response)) :=
  match urls with
  | [] => Some []
  | u :: urls' =>
      match net (GET u) with
      | Some r =>
          if addAll_accepts r then
            match fetch_all net urls' with
            | Some l => Some ((without_fragment u, r) :: l)
            | None => None
            end
          else None
      | None => None
      end
  end.

(** Store the collected responses, in order. *)
Definition put_all (entries : list (string * Response)) (c : Cache) : Cache :=
  foldl (λ acc e, <[e.1 := e.2]> acc) c entries.

(** [cache.addAll(urls)] on the cache called [cache]: every URL is fetched;
    the responses are stored only when all of them arrived, all are accepted
    and no two of the URLs are the same entry; otherwise the promise is
    rejected and the cache is left as it was. *)
Definition cache_addAll (cache : string) (urls : list string) : Promise unit :=
  λ w, let w' := with_requested (requested w ++ (GET <$> urls)) w in
       match fetch_all (network w) urls with
       | Some entries =>
           if decide (NoDup (without_fragment <$> urls)) then
             match find_cache cache (caches w) with
             | Some c =>
                 (Fulfilled (),
                  with_caches
                    (set_cache cache (put_all entries c) (caches w)) w')
             | None => (Fulfilled (), w')
             end
           else (Rejected, w')
       | None => (Rejected, w')
       end.

(** Reading the array the constant [URLS_TO_CACHE] is bound to. *)
Definition read_URLS_TO_CACHE : Promise (list string) :=
  λ w, (Fulfilled (urls_to_cache w), w).

(** *** The three event listeners *)

(** [install]: the promise handed to [event.waitUntil]. *)
Definition on_install : Promise unit :=
  (caches_open CACHE_NAME).then( cache =>
    read_URLS_TO_CACHE.then( urls => cache_addAll cache urls)).

(** [activate]: the promise handed to [event.waitUntil]. *)
Definition on_activate : Promise (list bool) :=
  caches_keys.then( keys =>
    Promise_all (caches_delete <$> filter (λ key, key ≠ CACHE_NAME) keys)).

(** What a fetch event ends with: the listener returned without calling
    [event.respondWith], or it handed [respondWith] a promise, which settled. *)
Inductive FetchOutcome : Type :=
  | NotIntercepted
  | RespondWith (r : Settled Response).

(** [fetch] *)
Definition on_fetch (request : Request) (w : World) : FetchOutcome * World :=
  if decide (method request ≠ "GET") then (NotIntercepted, w)
  else
    let '(r, w') :=
      ((caches_match request).then( cached =>
         match cached with
         | Some response => resolve response
         | None => fetch request
         end)) w in
    (RespondWith r, w').

(** *** The worker's life: the events the browser dispatches to it *)

Inductive WorkerEvent : Type :=
  | Install
  | Activate
  | Fetch (request : Request).

Definition dispatch (e : WorkerEvent) (w : World) : World :=
  match e with
  | Install => (on_install w).2
  | Activate => (on_activate w).2
  | Fetch request => (on_fetch request w).2
  end.

Definition dispatch_all (es : list WorkerEvent) (w : World) : World :=
  foldl (λ v e, dispatch e v) w es.

(** *** Reading Cache Storage *)

(** The response the cache called [name] holds for the URL [u]. *)
Definition entry (cs : CacheStorage) (name u : string) : option Response :=
  find_cache name cs ≫= λ c, c !! u.

(** Some cache holds a response for the URL [u]. *)
Definition has_entry (cs : CacheStorage) (u : string) : Prop :=
  ∃ name c, (name, c) ∈ cs ∧ is_Some (c !! u).

(** The response [r] is stored for the URL [u] in some cache. *)
Definition stored (cs : CacheStorage) (u : string) (r : Response) : Prop :=
  ∃ name c, (name, c) ∈ cs ∧ c !! u = Some r.

(** The outcome of a fetch for the bulk add: it brought a response the bulk
    add accepts. A fetch that brings nothing, a status that is not [ok] (a
    404, say) or a 206 has failed for it. *)
Definition fetch_succeeds (net : Request → option Response) (u : string)
    : Prop :=
  ∃ r, net (GET u) = Some r ∧ addAll_accepts r = true.

(** As a promise settles: [fetch]'s result for what the network gives. *)
Definition settle (o : option Response) : Settled Response :=
  match o with
  | Some r => Fulfilled r
  | None => Rejected
  end.

(** *** Sample worlds *)

Definition sample_response (u : string) : Response :=
  {| status := 200; body := u |}.

(** A network that serves every listed URL to a GET, and nothing else. *)
Definition serving_network (request : Request) : option Response :=
  if bool_decide (method request = "GET" ∧ url request ∈ URLS_TO_CACHE)
  then Some (sample_response (url request))
  else None.

(** The same network, with [/report] out of reach. *)
Definition report_down_network (request : Request) : option Response :=
  if bool_decide (url request = "/report") then None
  else serving_network request.

(** The current cache, holding the start page only, and a stale one. *)
Definition sample_storage : CacheStorage :=
  [ ("pwa-sales-app-v1", {[ "/" := sample_response "/" ]});
    ("old-cache", {[ "/old" := sample_response "/old" ]}) ].

Definition sample_world : World :=
  script_evaluated sample_storage serving_network.

Definition report_down_world : World :=
  script_evaluated sample_storage report_down_network.

(** The serving network, answering [/report] with a 404. *)
Definition report_missing_network (request : Request) : option Response :=
  if bool_decide (url request = "/report")
  then Some {| status := 404; body := "not found" |}
  else serving_network request.

Definition report_missing_world : World :=
  script_evaluated sample_storage report_missing_network.

(** A network that answers every listed URL with a 206. *)
Definition partial_content_network (request : Request) : option Response :=
  if bool_decide (method request = "GET" ∧ url request ∈ URLS_TO_CACHE)
  then Some {| status := 206; body := url request |}
  else None.

Definition partial_content_world : World :=
  script_evaluated sample_storage partial_content_network.

(** *** The network as it changes *)

(** The same world with another network: what the same requests bring later
    (for one, nothing at all once the device is offline). *)
Definition with_network (net : Request → option Response) (w : World)
    : World :=
  {| urls_to_cache := urls_to_cache w; caches := caches w;
     network := net; requested := requested w |}.

(** The device is offline: every fetch fails. *)
Definition offline : Request → option Response := λ _, None.

(** A first install attempted while offline: no cache exists yet. *)
Definition first_install_offline_world : World := script_evaluated [] offline.

End ServiceWorker.

(** ** The page-transition handler (main.js) *)

Module Transition.

(** *** The host: elements, the click event, timers *)

(** An element: its local name (lower case, as in an HTML document), the
    tokens of its class attribute and its other attributes. *)
Record Element := {
  tagName : string;
  classList : list string;
  attributes : gmap string string
}.

(** The callback handed to [setTimeout]: the closure
    [() => { window.location.href = url; }] with the [url] it captured. *)
Inductive Callback : Type :=
  | SetLocationHref (url : string).

(** A pending timer: the time (in ms) it is due and its callback. *)
Record Timer := { due : nat; callback : Callback }.

(** The page: the elements of the document in tree order (an element is
    referred to by its position), the click listeners attached to the body
    (each is the closure of the script, given by the shell element it
    captured), the pending timers, the time in ms, and the assignments made to
    [window.location.href] so far, each with the time it was made. *)
Record Page := {
  elements : list Element;
  body_click_listeners : list nat;
  timers : list Timer;
  clock : nat;
  location_assignments : list (nat * string)
}.

(** The click event: the target and its ancestors, nearest first, and the
    flag [event.preventDefault()] sets. *)
Record ClickEvent := {
  target_path : list nat;
  defaultPrevented : bool
}.

(** The page as the browser hands it to the script. *)
Definition document_parsed (els : list Element) : Page :=
  {| elements := els; body_click_listeners := []; timers := []; clock := 0;
     location_assignments := [] |}.

(** [document.querySelector("." + c)]: the first element, in tree order, that
    has the class [c]. *)
Definition querySelector_class (c : string) (els : list Element) : option nat :=
  fst <$> list_find (λ e, c ∈ classList e) els.

(** The selector [a[data-transition]]. *)
Definition matches_a_data_transition (e : Element) : bool :=
  bool_decide (tagName e = "a")
  && bool_decide (is_Some (attributes e !! "data-transition")).

(** [event.target.closest("a[data-transition]")]: the nearest element of the
    target's path, the target included, that matches the selector. *)
Fixpoint closest (els : list Element) (path : list nat) : option Element :=
  match path with
  | [] => None
  | i :: ancestors =>
      match els !! i with
      | Some e =>
          if matches_a_data_transition e then Some e else closest els ancestors
      | None => closest els ancestors
      end
  end.

(** [link.getAttribute(name)]: [None] stands for [null]. *)
Definition getAttribute (link : Element) (name : string) : option string :=
  attributes link !! name.

(** [link.dataset.transition] *)
Definition dataset_transition (link : Element) : option string :=
  attributes link !! "data-transition".

(** [s.startsWith(pre)] *)
Definition startsWith (s pre : string) : bool := String.prefix pre s.

(** [event.preventDefault()] *)
Definition preventDefault (event : ClickEvent) : ClickEvent :=
  {| target_path := target_path event; defaultPrevented := true |}.

(** A class list is a set of tokens kept in order. *)
Definition add_token (c : string) (tokens : list string) : list string :=
  if decide (c ∈ tokens) then tokens else tokens ++ [c].

(** [el.classList.add(c)] for the element at position [el]. *)
Definition classList_add (el : nat) (c : string) (p : Page) : Page :=
  {| elements :=
       alter (λ e, {| tagName := tagName e;
                      classList := add_token c (classList e);
                      attributes := attributes e |}) el (elements p);
     body_click_listeners := body_click_listeners p;
     timers := timers p;
     clock := clock p;
     location_assignments := location_assignments p |}.

(** [setTimeout(cb, delay)]; the identifier it returns is dropped by the
    script, so it is not part of the model. *)
Definition setTimeout (cb : Callback) (delay : nat) (p : Page) : Page :=
  {| elements := elements p;
     body_click_listeners := body_click_listeners p;
     timers := timers p ++ [{| due := clock p + delay; callback := cb |}];
     clock := clock p;
     location_assignments := location_assignments p |}.

(** [document.body.addEventListener("click", listener)] *)
Definition body_addEventListener_click (shell : nat) (p : Page) : Page :=
  {| elements := elements p;
     body_click_listeners := body_click_listeners p ++ [shell];
     timers := timers p;
     clock := clock p;
     location_assignments := location_assignments p |}.

(** *** The script *)

(** The click listener, for the [shell] it captured. *)
Definition click_listener (shell : nat) (event : ClickEvent) (p : Page)
    : ClickEvent * Page :=
  match closest (elements p) (target_path event) with
  | None => (event, p)
  | Some link =>
      let url := getAttribute link "href" in
      let type := dataset_transition link in
      match url with
      | None => (event, p)
      | Some url =>
          if bool_decide (url = EmptyString) || startsWith url "http"
          then (event, p)
          else
            let event := preventDefault event in
            let p :=
              if bool_decide (type = Some "back")
              then classList_add shell "page-slide-out-right" p
              else classList_add shell "page-slide-out-left" p in
            let p := setTimeout (SetLocationHref url) 180 p in
            (event, p)
      end
  end.

(** The [DOMContentLoaded] listener. *)
Definition on_DOMContentLoaded (p : Page) : Page :=
  match querySelector_class "app-shell" (elements p) with
  | None => p
  | Some shell => body_addEventListener_click shell p
  end.

(** *** The browser's side: dispatching clicks, running timers *)

(** A click on the element at the head of [path] reaches the body; the
    listeners attached there run in the order they were added. *)
Definition dispatch_click (path : list nat) (p : Page) : ClickEvent * Page :=
  foldl (λ ep shell, click_listener shell ep.1 ep.2)
        ({| target_path := path; defaultPrevented := false |}, p)
        (body_click_listeners p).

Definition run_callback (now : nat) (cb : Callback)
    (log : list (nat * string)) : list (nat * string) :=
  match cb with
  | SetLocationHref url => log ++ [(now, url)]
  end.

(** One millisecond passes: the timers that are due run, in the order they
    were set, and leave the queue. *)
Definition tick (p : Page) : Page :=
  let now := S (clock p) in
  {| elements := elements p;
     body_click_listeners := body_click_listeners p;
     timers := filter (λ t, now < due t) (timers p);
     clock := now;
     location_assignments :=
       foldl (λ log t, run_callback now (callback t) log)
             (location_assignments p)
             (filter (λ t, due t ≤ now) (timers p)) |}.

(** What happens to the page after the script has run: clicks and the
    passing of time. *)
Inductive PageEvent : Type :=
  | Click (path : list nat)
  | Tick.

Definition step (e : PageEvent) (p : Page) : Page :=
  match e with
  | Click path => (dispatch_click path p).2
  | Tick => tick p
  end.

Definition run (es : list PageEvent) (p : Page) : Page :=
  foldl (λ q e, step e q) p es.

(** *** Reading the page *)

(** An anchor that carries the [data-transition] attribute. *)
Definition is_transition_link (e : Element) : Prop :=
  tagName e = "a" ∧ is_Some (attributes e !! "data-transition").

(** The click is one the listener takes over: the nearest transition link
    above the target is [link], and its [href] is [url], which is not empty
    and does not start with "http". *)
Definition intercepted (p : Page) (event : ClickEvent)
    (link : Element) (url : string) : Prop :=
  closest (elements p) (target_path event) = Some link
  ∧ getAttribute link "href" = Some url
  ∧ url ≠ EmptyString
  ∧ startsWith url "http" = false.

(** The timer the listener sets for a click at the page [p]. *)
Definition navigation_timer (p : Page) (url : string) : Timer :=
  {| due := clock p + 180; callback := SetLocationHref url |}.

(** A timer that has been set stays in the queue until the clock reaches its
    due time, whatever is clicked meanwhile; at that time its callback has
    run. *)
Definition pending_or_fired (t : Timer) (url : string) (q : Page) : Prop :=
  (clock q < due t ∧ t ∈ timers q)
  ∨ (due t ≤ clock q ∧ (due t, url) ∈ location_assignments q).

(** *** A sample page *)

Definition sample_shell : Element :=
  {| tagName := "div"; classList := ["app-shell"]; attributes := ∅ |}.

Definition sample_back_link : Element :=
  {| tagName := "a"; classList := ["nav-back"];
     attributes := {[ "data-transition" := "back"; "href" := "/input" ]} |}.

Definition sample_forward_link : Element :=
  {| tagName := "a"; classList := [];
     attributes := {[ "data-transition" := "forward"; "href" := "/report" ]} |}.

Definition sample_external_link : Element :=
  {| tagName := "a"; classList := [];
     attributes := {[ "data-transition" := "forward";
                      "href" := "https://example.com/" ]} |}.

Definition sample_plain_link : Element :=
  {| tagName := "a"; classList := [];
     attributes := {[ "href" := "/settings" ]} |}.

Definition sample_elements : list Element :=
  [ sample_shell;
    sample_back_link;
    {| tagName := "span"; classList := []; attributes := ∅ |};
    sample_forward_link;
    sample_external_link;
    sample_plain_link ].

(** The sample page once [DOMContentLoaded] has been handled. *)
Definition sample_page : Page :=
  on_DOMContentLoaded (document_parsed sample_elements).

(** A click on the [span] inside the back link. *)
Definition click_on_back_label : ClickEvent :=
  {| target_path := [2; 1; 0]; defaultPrevented := false |}.

(** Clicks on the forward link, the external link and the plain link. *)
Definition click_on_forward : ClickEvent :=
  {| target_path := [3; 0]; defaultPrevented := false |}.

Definition click_on_external : ClickEvent :=
  {| target_path := [4; 0]; defaultPrevented := false |}.

Definition click_on_plain : ClickEvent :=
  {| target_path := [5; 0]; defaultPrevented := false |}.

(** A document with transition links and no shell element. *)
Definition shell_less_elements : list Element :=
  [ {| tagName := "div"; classList := ["content"]; attributes := ∅ |};
    sample_back_link;
    sample_forward_link ].

(** *** Comparing pages *)

(** The element [e'] is [e] with, possibly, more classes: the same tag, the
    same attributes, and every class of [e]. *)
Definition grown_from (e e' : Element) : Prop :=
  tagName e' = tagName e
  ∧ attributes e' = attributes e
  ∧ ∀ c, c ∈ classList e → c ∈ classList e'.

(** The guard of the click listener, read on its own: whether a click with
    the given path is taken over. *)
Definition takes_over (els : list Element) (path : list nat) : bool :=
  match closest els path with
  | None => false
  | Some link =>
      match getAttribute link "href" with
      | None => false
      | Some url =>
          negb (bool_decide (url = EmptyString) || startsWith url "http")
      end
  end.

(** Whether an event is a click that is taken over. *)
Definition is_taken_over (els : list Element) (e : PageEvent) : bool :=
  match e with
  | Click path => takes_over els path
  | Tick => false
  end.

(** The clicks of a sequence of events that are taken over. *)
Definition taken_over_clicks (els : list Element) (es : list PageEvent)
    : list PageEvent :=
  filter (λ e, is_taken_over els e = true) es.

(** The class the listener adds for a link. *)
Definition slide_class (link : Element) : string :=
  if bool_decide (dataset_transition link = Some "back")
  then "page-slide-out-right" else "page-slide-out-left".

End Transition.

(** ** Properties of the offline cache worker *)

Module ServiceWorkerSpec.
Import ServiceWorker.

(** *** Cache Storage lemmas *)

Lemma find_cache_None name (cs : CacheStorage) :
  find_cache name cs = None ↔ name ∉ cache_names cs.
Proof.
  unfold cache_names. induction cs as [|[n c] cs IH]; simpl.
  - split; [intros _; apply not_elem_of_nil | done].
  - rewrite not_elem_of_cons. destruct (decide (n = name)) as [->|Hne].
    + split; [done | intros [? _]; done].
    + rewrite IH. split; [intros ?; split; [congruence | done] | intros [_ ?]; done].
Qed.

Lemma find_cache_Some_elem name c (cs : CacheStorage) :
  find_cache name cs = Some c → (name, c) ∈ cs.
Proof.
  induction cs as [|[n c0] cs IH]; simpl; [done|].
  destruct (decide (n = name)) as [->|Hne].
  - intros [= ->]. apply list_elem_of_here.
  - intros H. apply list_elem_of_further, IH, H.
Qed.

Lemma find_cache_app_new name (cs : CacheStorage) c :
  find_cache name cs = None →
  ∀ n, find_cache n (cs ++ [(name, c)]) =
       if decide (n = name) then Some c else find_cache n cs.
Proof.
  intros Hnone n. induction cs as [|[n0 c0] cs IH]; simpl in *.
  - destruct (decide (name = n)), (decide (n = name)); congruence.
  - destruct (decide (n0 = name)) as [->|Hne]; [done|].
    destruct (decide (n0 = n)) as [->|Hne'].
    + destruct (decide (n = name)); congruence.
    + apply IH, Hnone.
Qed.

Lemma names_set_cache name c (cs : CacheStorage) :
  cache_names (set_cache name c cs) = cache_names cs.
Proof.
  unfold cache_names. induction cs as [|[n c0] cs IH]; simpl; [done|].
  destruct (decide (n = name)); simpl; [done | by f_equal].
Qed.

Lemma find_set_cache name c (cs : CacheStorage) :
  is_Some (find_cache name cs) →
  find_cache name (set_cache name c cs) = Some c.
Proof.
  induction cs as [|[n c0] cs IH]; simpl; [by intros [? ?]|].
  destruct (decide (n = name)) as [->|Hne]; simpl.
  - by rewrite decide_True.
  - by rewrite decide_False.
Qed.

Lemma match_all_Some u r (cs : CacheStorage) :
  match_all u cs = Some r → stored cs u r.
Proof.
  induction cs as [|[n c] cs IH]; simpl; [done|].
  destruct (c !! u) as [r'|] eqn:Hc.
  - intros [= ->]. exists n, c. split; [apply list_elem_of_here | done].
  - intros H. destruct (IH H) as (n' & c' & Hin & Hr).
    exists n', c'. split; [by apply list_elem_of_further | done].
Qed.

Lemma match_all_None u (cs : CacheStorage) :
  match_all u cs = None ↔ ¬ has_entry cs u.
Proof.
  induction cs as [|[n c] cs IH]; simpl.
  - split; [|done]. intros _ (n & c & Hin & _). by apply elem_of_nil in Hin.
  - destruct (c !! u) as [r|] eqn:Hc.
    + split; [done|]. intros Hno. exfalso. apply Hno.
      exists n, c. split; [apply list_elem_of_here | by rewrite Hc].
    + rewrite IH. split.
      * intros Hno (n' & c' & Hin & Hsome). apply elem_of_cons in Hin as [Heq|Hin].
        -- injection Heq as -> ->. rewrite Hc in Hsome. by destruct Hsome.
        -- apply Hno. by exists n', c'.
      * intros Hno (n' & c' & Hin & Hsome). apply Hno.
        exists n', c'. split; [by apply list_elem_of_further | done].
Qed.

(** *** The fetch listener *)

(** C1. A fetch event whose request is not a GET is not intercepted: the
    listener returns without [respondWith], sends nothing to the network and
    leaves Cache Storage alone. For a GET with a matching entry in some cache
    (an entry for the request's URL, the fragment left out of the
    comparison), the response handed to [respondWith] is one stored for that
    URL, and no request goes to the network. For a GET with no matching
    entry, exactly this request goes to the network and its result (the
    response, or the failure of the fetch) is what [respondWith] gets. In
    every case Cache Storage after the event is what it was before: the
    result is not written back. *)
Theorem fetch_cache_first_then_network (request : Request) (w : World) :
  (method request ≠ "GET" → on_fetch request w = (NotIntercepted, w))
  ∧ (method request = "GET" →
     has_entry (caches w) (without_fragment (url request)) →
       ∃ cached, stored (caches w) (without_fragment (url request)) cached
         ∧ on_fetch request w = (RespondWith (Fulfilled cached), w))
  ∧ (method request = "GET" →
     ¬ has_entry (caches w) (without_fragment (url request)) →
       ∃ w', on_fetch request w
               = (RespondWith (settle (network w request)), w')
         ∧ requested w' = requested w ++ [request]
         ∧ caches w' = caches w)
  ∧ caches (on_fetch request w).2 = caches w.
Proof.
  assert (Hget : method request = "GET" →
     on_fetch request w =
       match match_all (without_fragment (url request)) (caches w) with
       | Some r => (RespondWith (Fulfilled r), w)
       | None => (RespondWith (settle (network w request)),
                  with_requested (requested w ++ [request]) w)
       end).
  { intros Hm. unfold on_fetch, then_, caches_match, fetch, resolve.
    rewrite decide_False by (intros Hne; by apply Hne).
    rewrite decide_True by done.
    destruct (match_all (without_fragment (url request)) (caches w)); [done|].
    by destruct (network w request). }
  split; [|split; [|split]].
  - intros Hm. unfold on_fetch. by rewrite decide_True.
  - intros Hm Hhas. rewrite (Hget Hm).
    destruct (match_all (without_fragment (url request)) (caches w))
      as [r|] eqn:Hmatch.
    + exists r. split; [by apply match_all_Some | done].
    + by apply match_all_None in Hmatch.
  - intros Hm Hno. rewrite (Hget Hm).
    apply match_all_None in Hno. rewrite Hno. eexists. by split.
  - destruct (decide (method request = "GET")) as [Hm|Hm].
    + rewrite (Hget Hm).
      by destruct (match_all (without_fragment (url request)) (caches w)).
    + unfold on_fetch. by rewrite decide_True.
Qed.

(** *** The install listener *)

Lemma fetch_all_Some net (urls : list string) :
  Forall (fetch_succeeds net) urls → is_Some (fetch_all net urls).
Proof.
  induction 1 as [|u urls (r & Hr & Hok) _ [entries Hall]]; simpl.
  - by eexists.
  - rewrite Hr, Hok, Hall. by eexists.
Qed.

Lemma fetch_all_None net (urls : list string) :
  Exists (λ u, ¬ fetch_succeeds net u) urls → fetch_all net urls = None.
Proof.
  induction 1 as [u urls Hfail | u urls _ IH]; simpl.
  - destruct (net (GET u)) as [r|] eqn:Hr; [|done].
    destruct (addAll_accepts r) eqn:Hok; [|done].
    exfalso. apply Hfail. by exists r.
  - rewrite IH. destruct (net (GET u)) as [r|]; [|done].
    by destruct (addAll_accepts r).
Qed.

(** What the collected responses are: one for each URL, the one the network
    gave, under the URL's key. *)
Lemma fetch_all_inv net (urls : list string) entries :
  fetch_all net urls = Some entries →
  entries.*1 = without_fragment <$> urls
  ∧ ∀ u, u ∈ urls →
      ∃ r, net (GET u) = Some r ∧ addAll_accepts r = true
        ∧ (without_fragment u, r) ∈ entries.
Proof.
  revert entries. induction urls as [|u urls IH]; intros entries; simpl.
  - intros [= <-]. split; [done|]. intros u Hu. by apply elem_of_nil in Hu.
  - destruct (net (GET u)) as [r|] eqn:Hr; [|done].
    destruct (addAll_accepts r) eqn:Hok; [|done].
    destruct (fetch_all net urls) as [l|]; [|done].
    intros [= <-]. destruct (IH l eq_refl) as [Hfst Hall]. split.
    + simpl. by f_equal.
    + intros u' Hu'. apply elem_of_cons in Hu' as [->|Hu'].
      * exists r. split_and!; [done | done | apply list_elem_of_here].
      * destruct (Hall u' Hu') as (r' & ? & ? & ?). exists r'.
        split_and!; [done | done | by apply list_elem_of_further].
Qed.

Lemma put_all_other (entries : list (string * Response)) (c : Cache) u :
  u ∉ entries.*1 → put_all entries c !! u = c !! u.
Proof.
  unfold put_all. revert c.
  induction entries as [|[u0 r0] entries IH]; intros c Hnot; simpl; [done|].
  simpl in Hnot. apply not_elem_of_cons in Hnot as [Hne Hnot].
  rewrite IH by done. by apply lookup_insert_ne.
Qed.

Lemma put_all_lookup (entries : list (string * Response)) (c : Cache) k r :
  NoDup entries.*1 → (k, r) ∈ entries → put_all entries c !! k = Some r.
Proof.
  revert c. induction entries as [|[k0 r0] entries IH]; intros c Hdup Hin.
  - by apply elem_of_nil in Hin.
  - simpl in Hdup. apply NoDup_cons in Hdup as [Hfresh Hdup].
    change (put_all entries (<[k0:=r0]> c) !! k = Some r).
    apply elem_of_cons in Hin as [Heq|Hin].
    + injection Heq as -> ->. rewrite put_all_other by done.
      apply lookup_insert_eq.
    + by apply IH.
Qed.

(** The listed URLs have no fragment, and no two of them are the same. *)
Lemma listed_urls_keys : without_fragment <$> URLS_TO_CACHE = URLS_TO_CACHE.
Proof. reflexivity. Qed.

Lemma listed_urls_distinct : NoDup URLS_TO_CACHE.
Proof.
  apply (bool_decide_unpack (NoDup URLS_TO_CACHE)). vm_compute. exact I.
Qed.

Lemma listed_url_key u : u ∈ URLS_TO_CACHE → without_fragment u = u.
Proof.
  revert u. apply Forall_forall. unfold URLS_TO_CACHE.
  repeat (apply Forall_cons; split; [reflexivity|]). apply Forall_nil_2.
Qed.

(** What [caches.open] leaves behind. *)
Lemma caches_open_spec name (w : World) :
  ∃ w1, caches_open name w = (Fulfilled name, w1)
    ∧ urls_to_cache w1 = urls_to_cache w
    ∧ network w1 = network w
    ∧ requested w1 = requested w
    ∧ find_cache name (caches w1)
        = Some (default ∅ (find_cache name (caches w)))
    ∧ (∀ n u, entry (caches w1) n u = entry (caches w) n u)
    ∧ (∀ n, n ∈ cache_names (caches w1) ↔
            n ∈ cache_names (caches w) ∨ n = name).
Proof.
  unfold caches_open. destruct (find_cache name (caches w)) as [c|] eqn:Hfind.
  - exists w. repeat split; try done.
    + intros ?. by left.
    + intros [?| ->]; [done|].
      destruct (decide (name ∈ cache_names (caches w))) as [?|Hnot]; [done|].
      apply find_cache_None in Hnot. congruence.
  - eexists. split; [reflexivity|]. simpl. repeat split.
    + rewrite find_cache_app_new by done. by rewrite decide_True.
    + intros n u. unfold entry. rewrite find_cache_app_new by done.
      destruct (decide (n = name)) as [->|]; [|done].
      rewrite Hfind. simpl. apply lookup_empty.
    + unfold cache_names. rewrite fmap_app, elem_of_app. simpl.
      rewrite list_elem_of_singleton. done.
    + unfold cache_names. rewrite fmap_app, elem_of_app. simpl.
      rewrite list_elem_of_singleton. done.
Qed.

Lemma find_set_cache_ne name n c (cs : CacheStorage) :
  n ≠ name → find_cache n (set_cache name c cs) = find_cache n cs.
Proof.
  intros Hne. induction cs as [|[n0 c0] cs IH]; [done|]. cbn [set_cache].
  destruct (decide (n0 = name)) as [->|Hn0]; cbn [find_cache].
  - by destruct (decide (name = n)).
  - by destruct (decide (n0 = n)).
Qed.

(** The install listener, step by step: the world [w1] left by
    [caches.open], then the bulk add, which either stores every collected
    response or stores nothing. *)
Lemma on_install_run (w : World) :
  ∃ w1 c0,
    caches_open CACHE_NAME w = (Fulfilled CACHE_NAME, w1)
    ∧ find_cache CACHE_NAME (caches w1) = Some c0
    ∧ (∀ n u, entry (caches w1) n u = entry (caches w) n u)
    ∧ network (on_install w).2 = network w
    ∧ urls_to_cache (on_install w).2 = urls_to_cache w
    ∧ requested (on_install w).2 = requested w ++ (GET <$> urls_to_cache w)
    ∧ (((on_install w).1 = Fulfilled ()
        ∧ ∃ entries,
            fetch_all (network w) (urls_to_cache w) = Some entries
            ∧ NoDup (without_fragment <$> urls_to_cache w)
            ∧ caches (on_install w).2
              = set_cache CACHE_NAME (put_all entries c0) (caches w1))
       ∨ ((on_install w).1 = Rejected
          ∧ (fetch_all (network w) (urls_to_cache w) = None
             ∨ ¬ NoDup (without_fragment <$> urls_to_cache w))
          ∧ caches (on_install w).2 = caches w1)).
Proof.
  destruct (caches_open_spec CACHE_NAME w)
    as (w1 & Hopen & Hurls & Hnet & Hreq & Hfind & Hentry & _).
  exists w1, (default ∅ (find_cache CACHE_NAME (caches w))).
  assert (Hrun : on_install w = cache_addAll CACHE_NAME (urls_to_cache w) w1).
  { unfold on_install, then_, read_URLS_TO_CACHE. by rewrite Hopen, Hurls. }
  rewrite Hrun. unfold cache_addAll. rewrite Hnet, Hfind, Hreq.
  destruct (fetch_all (network w) (urls_to_cache w)) as [entries|];
    [destruct (decide (NoDup (without_fragment <$> urls_to_cache w)))|];
    simpl; split_and!; try done.
  - left. split; [done|]. by exists entries.
  - right. split_and!; [done | by right | done].
  - right. split_and!; [done | by left | done].
Qed.

(** The entries after an install of the script's own list. *)
Lemma on_install_entries (w : World) name u :
  urls_to_cache w = URLS_TO_CACHE →
  (Forall (fetch_succeeds (network w)) URLS_TO_CACHE →
     (on_install w).1 = Fulfilled ()
     ∧ entry (caches (on_install w).2) name u
       = if decide (name = CACHE_NAME ∧ u ∈ URLS_TO_CACHE)
         then network w (GET u)
         else entry (caches w) name u)
  ∧ (¬ Forall (fetch_succeeds (network w)) URLS_TO_CACHE →
     (on_install w).1 = Rejected
     ∧ entry (caches (on_install w).2) name u = entry (caches w) name u).
Proof.
  intros Hurls.
  destruct (on_install_run w)
    as (w1 & c0 & _ & Hfind & Hentry & _ & _ & _ & Hrun).
  rewrite Hurls, listed_urls_keys in Hrun. split.
  - intros Hall.
    destruct Hrun as [(Hres & entries & Hsome & _ & ->)
                     | (_ & [Hnone | Hdup] & _)].
    + split; [done|].
      destruct (fetch_all_inv _ _ _ Hsome) as [Hfst Hin].
      rewrite listed_urls_keys in Hfst.
      unfold entry at 1. destruct (decide (name = CACHE_NAME)) as [->|Hne].
      * rewrite find_set_cache by (rewrite Hfind; eauto). simpl.
        destruct (decide (u ∈ URLS_TO_CACHE)) as [Hu|Hu].
        -- rewrite decide_True by done.
           destruct (Hin u Hu) as (r & -> & _ & Hr).
           rewrite (listed_url_key u Hu) in Hr.
           apply put_all_lookup; [|done].
           rewrite Hfst. apply listed_urls_distinct.
        -- rewrite decide_False by (intros [_ ?]; done).
           rewrite put_all_other by (by rewrite Hfst).
           rewrite <- Hentry. unfold entry. by rewrite Hfind.
      * rewrite find_set_cache_ne by done.
        rewrite decide_False by (intros [? _]; done). apply Hentry.
    + destruct (fetch_all_Some _ _ Hall) as [? ?]. congruence.
    + destruct Hdup. apply listed_urls_distinct.
  - intros Hnot.
    destruct Hrun as [(_ & entries & Hsome & _) | (Hres & _ & ->)].
    + destruct Hnot. apply Forall_forall. intros u' Hu'.
      destruct (fetch_all_inv _ _ _ Hsome) as [_ Hin].
      destruct (Hin u' Hu') as (r & ? & ? & _). by exists r.
    + split; [done | apply Hentry].
Qed.

(** C2. Installing from the world the script sets up (its URL array as the
    script wrote it): when the fetch of every listed URL succeeds (it brings
    a response the bulk add accepts: an ok status other than 206), the
    install promise is fulfilled and each listed URL is present in the cache
    named [CACHE_NAME], with the response the network gave for it; when the
    fetch of some listed URL fails (no response, a status that is not ok, or
    a 206), the install promise is rejected and every cache holds exactly the
    entries it held before, so nothing of the batch persists. *)
Theorem install_bulk_add_atomic (w : World) :
  urls_to_cache w = URLS_TO_CACHE →
  (Forall (fetch_succeeds (network w)) URLS_TO_CACHE →
     (on_install w).1 = Fulfilled ()
     ∧ ∀ u, u ∈ URLS_TO_CACHE →
         ∃ r, network w (GET u) = Some r
           ∧ entry (caches (on_install w).2) CACHE_NAME u = Some r)
  ∧ (Exists (λ u, ¬ fetch_succeeds (network w) u) URLS_TO_CACHE →
     (on_install w).1 = Rejected
     ∧ ∀ name u,
         entry (caches (on_install w).2) name u = entry (caches w) name u).
Proof.
  intros Hurls. split.
  - intros Hall. split.
    + by destruct (on_install_entries w CACHE_NAME EmptyString Hurls)
        as [[? _] _].
    + intros u Hu.
      apply (proj1 (Forall_forall _ _) Hall) in Hu as Hok.
      destruct Hok as (r & Hr & _). exists r. split; [done|].
      destruct (on_install_entries w CACHE_NAME u Hurls) as [Hyes _].
      destruct (Hyes Hall) as [_ ->]. by rewrite decide_True.
  - intros Hsome.
    assert (Hnot : ¬ Forall (fetch_succeeds (network w)) URLS_TO_CACHE).
    { intros Hall. apply Exists_exists in Hsome as (u & Hu & Hfail).
      apply Hfail. by apply (proj1 (Forall_forall _ _) Hall). }
    split.
    + by destruct (on_install_entries w CACHE_NAME EmptyString Hurls)
        as [_ [? _]].
    + intros name u.
      destruct (on_install_entries w name u Hurls) as [_ Hno].
      by destruct (Hno Hnot).
Qed.

(** *** The activate listener *)

Lemma filter_ext_elem {A} (P Q : A → Prop)
    `{!∀ x, Decision (P x), !∀ x, Decision (Q x)} (l : list A) :
  (∀ x, x ∈ l → P x ↔ Q x) → filter P l = filter Q l.
Proof.
  induction l as [|a l IH]; intros Hiff; [done|].
  assert (Hl : filter P l = filter Q l).
  { apply IH. intros x Hx. apply Hiff. by apply list_elem_of_further. }
  pose proof (Hiff a (list_elem_of_here a l)) as Ha.
  destruct (decide (P a)) as [HP|HP].
  - rewrite !filter_cons_True by tauto. by rewrite Hl.
  - rewrite !filter_cons_False by tauto. done.
Qed.

Lemma with_caches_same (w : World) : with_caches (caches w) w = w.
Proof. by destruct w. Qed.

Lemma with_caches_twice cs cs' (w : World) :
  with_caches cs (with_caches cs' w) = with_caches cs w.
Proof. done. Qed.

Lemma filter_all {A} (P : A → Prop) `{!∀ x, Decision (P x)} (l : list A) :
  (∀ x, x ∈ l → P x) → filter P l = l.
Proof.
  induction l as [|a l IH]; intros Hall; [done|].
  rewrite filter_cons_True by apply Hall, list_elem_of_here.
  f_equal. apply IH. intros x Hx. by apply Hall, list_elem_of_further.
Qed.

Lemma caches_delete_spec name (w : World) :
  ∃ b, caches_delete name w
       = (Fulfilled b, with_caches (filter (λ nc, nc.1 ≠ name) (caches w)) w).
Proof.
  unfold caches_delete.
  destruct (find_cache name (caches w)) eqn:Hfind; [by eexists|].
  exists false. f_equal. rewrite <- (with_caches_same w) at 1. f_equal.
  apply find_cache_None in Hfind. symmetry. apply filter_all.
  intros [n c] Hin Heq. simpl in Heq. subst n. apply Hfind.
  unfold cache_names. by apply (list_elem_of_fmap_2 fst) in Hin.
Qed.

Lemma delete_all_spec (names : list string) (w : World) :
  ∃ bs, Promise_all (caches_delete <$> names) w
        = (Fulfilled bs,
           with_caches (filter (λ nc, nc.1 ∉ names) (caches w)) w).
Proof.
  revert w. induction names as [|name names IH]; intros w.
  - exists []. simpl. unfold resolve. f_equal.
    rewrite filter_all; [by rewrite with_caches_same|].
    intros ? _. apply not_elem_of_nil.
  - rewrite fmap_cons. cbn [Promise_all].
    destruct (caches_delete_spec name w) as (b & ->).
    destruct (IH (with_caches (filter (λ nc, nc.1 ≠ name) (caches w)) w))
      as (bs & ->).
    exists (b :: bs). f_equal. simpl. rewrite with_caches_twice. f_equal.
    rewrite list_filter_filter. apply list_filter_iff.
    intros nc. rewrite not_elem_of_cons. tauto.
Qed.

Lemma on_activate_spec (w : World) :
  ∃ bs, on_activate w
        = (Fulfilled bs,
           with_caches (filter (λ nc, nc.1 = CACHE_NAME) (caches w)) w).
Proof.
  unfold on_activate, then_, caches_keys.
  destruct (delete_all_spec
              (filter (λ key, key ≠ CACHE_NAME) (cache_names (caches w))) w)
    as (bs & ->).
  exists bs. f_equal. f_equal. apply filter_ext_elem.
  intros [n c] Hin. simpl. rewrite list_elem_of_filter.
  apply (list_elem_of_fmap_2 fst) in Hin. simpl in Hin.
  unfold cache_names. destruct (decide (n = CACHE_NAME)) as [Heq|Hne].
  - split; [done|]. intros _ [Hne _]. by apply Hne.
  - split; [|done]. intros Hno. exfalso. apply Hno. by split.
Qed.

Lemma find_cache_filter_same name (cs : CacheStorage) :
  find_cache name (filter (λ nc, nc.1 = name) cs) = find_cache name cs.
Proof.
  induction cs as [|[n c] cs IH]; [done|].
  destruct (decide (n = name)) as [->|Hne].
  - rewrite filter_cons_True by done. cbn [find_cache].
    by destruct (decide (name = name)).
  - rewrite filter_cons_False by done. cbn [find_cache].
    by destruct (decide (n = name)).
Qed.

(** C3. Activation never fails, and of the caches that exist when it runs it
    deletes exactly those whose name differs from [CACHE_NAME]: a cache that
    existed is gone afterwards if and only if its name is not [CACHE_NAME],
    and the cache named [CACHE_NAME] keeps its entries. From the caches
    "pwa-sales-app-v1" and "old-cache" only "pwa-sales-app-v1" is left, with
    its contents. *)
Theorem activate_deletes_exactly_stale (w : World) :
  (∃ bs, (on_activate w).1 = Fulfilled bs)
  ∧ (∀ name, name ∈ cache_names (caches w) →
       name ∉ cache_names (caches (on_activate w).2) ↔ name ≠ CACHE_NAME)
  ∧ (∀ u, entry (caches (on_activate w).2) CACHE_NAME u
          = entry (caches w) CACHE_NAME u)
  ∧ (∀ c1 c2 : Cache,
       caches (on_activate
                 (with_caches [("pwa-sales-app-v1", c1); ("old-cache", c2)] w)).2
       = [("pwa-sales-app-v1", c1)]).
Proof.
  split; [|split; [|split]].
  - destruct (on_activate_spec w) as (bs & ->). by exists bs.
  - destruct (on_activate_spec w) as (bs & ->). simpl.
    intros name Hin. unfold cache_names in *.
    rewrite list_elem_of_fmap. split.
    + intros Hgone ->. apply Hgone.
      apply list_elem_of_fmap in Hin as ([n c] & Hn & Hnc). simpl in Hn.
      exists (n, c). split; [done|]. apply list_elem_of_filter.
      split; [by rewrite <- Hn | done].
    + intros Hne ([n c] & Hn & Hnc). simpl in Hn. subst n.
      apply list_elem_of_filter in Hnc as [Heq _]. by apply Hne.
  - destruct (on_activate_spec w) as (bs & ->). simpl.
    intros u. unfold entry. by rewrite find_cache_filter_same.
  - intros c1 c2.
    destruct (on_activate_spec
                (with_caches [("pwa-sales-app-v1", c1); ("old-cache", c2)] w))
      as (bs & ->). simpl.
    rewrite filter_cons_True by done. rewrite filter_cons_False by done.
    done.
Qed.

(** *** Cache names *)

Lemma on_install_names (w : World) :
  cache_names (caches (on_install w).2)
  = cache_names (caches (caches_open CACHE_NAME w).2).
Proof.
  destruct (on_install_run w) as (w1 & c0 & -> & _ & _ & _ & _ & _ & Hrun).
  destruct Hrun as [(_ & entries & _ & _ & ->) | (_ & _ & ->)]; [|done].
  apply names_set_cache.
Qed.

(** C9. Every cache that exists once the activate listener has completed is
    named [CACHE_NAME], and a cache that exists after the install listener
    either existed before it or is named [CACHE_NAME]: install creates no
    cache under another name. *)
Theorem active_cache_name_is_version (w : World) (name : string) :
  (name ∈ cache_names (caches (on_activate w).2) → name = CACHE_NAME)
  ∧ (name ∈ cache_names (caches (on_install w).2) →
       name ∈ cache_names (caches w) ∨ name = CACHE_NAME).
Proof.
  split.
  - destruct (on_activate_spec w) as (bs & ->). simpl. unfold cache_names.
    intros ([n c] & -> & Hin)%list_elem_of_fmap.
    by apply list_elem_of_filter in Hin as [Heq _].
  - rewrite on_install_names.
    destruct (caches_open_spec CACHE_NAME w) as (w1 & -> & _ & _ & _ & _ & _ & Hn).
    simpl. apply Hn.
Qed.

(** *** The URL list *)

Lemma on_install_urls (w : World) :
  urls_to_cache (on_install w).2 = urls_to_cache w.
Proof. by destruct (on_install_run w) as (_ & _ & _ & _ & _ & _ & ? & _). Qed.

Lemma on_install_requested (w : World) :
  requested (on_install w).2 = requested w ++ (GET <$> urls_to_cache w).
Proof.
  by destruct (on_install_run w) as (_ & _ & _ & _ & _ & _ & _ & ? & _).
Qed.

Lemma on_activate_urls (w : World) :
  urls_to_cache (on_activate w).2 = urls_to_cache w.
Proof. by destruct (on_activate_spec w) as (bs & ->). Qed.

Lemma on_fetch_urls request (w : World) :
  urls_to_cache (on_fetch request w).2 = urls_to_cache w.
Proof.
  unfold on_fetch. destruct (decide (method request ≠ "GET")); [done|].
  unfold then_, caches_match, fetch, resolve.
  destruct (decide (method request = "GET")); simpl.
  - destruct (match_all (without_fragment (url request)) (caches w)); [done|].
    by destruct (network w request).
  - by destruct (network w request).
Qed.

Lemma dispatch_all_urls (es : list WorkerEvent) (w : World) :
  urls_to_cache (dispatch_all es w) = urls_to_cache w.
Proof.
  unfold dispatch_all. revert w.
  induction es as [|e es IH]; intros w; simpl; [done|].
  rewrite IH. destruct e; simpl.
  - apply on_install_urls.
  - apply on_activate_urls.
  - apply on_fetch_urls.
Qed.

(** C8, as the code has it. The list holds the five page paths [/], [/input],
    [/report], [/settings], [/performance] followed by five static asset
    paths, ten entries in all; whatever events the worker has handled since
    its script was evaluated, the array is still that list, and an install
    requests exactly its URLs, in order, for the bulk add. *)
Theorem urls_to_cache_fixed (cs : CacheStorage)
    (net : Request → option Response) (es : list WorkerEvent) :
  let w := dispatch_all es (script_evaluated cs net) in
  filter (λ u, ¬ is_static_asset u) URLS_TO_CACHE
    = ["/"; "/input"; "/report"; "/settings"; "/performance"]
  ∧ filter is_static_asset URLS_TO_CACHE
    = ["/static/css/style.css"; "/static/js/main.js";
       "/static/js/service-worker.js"; "/static/image/icon-192.png";
       "/static/image/icon-512.png"]
  ∧ URLS_TO_CACHE = filter (λ u, ¬ is_static_asset u) URLS_TO_CACHE
                    ++ filter is_static_asset URLS_TO_CACHE
  ∧ length URLS_TO_CACHE = 10
  ∧ urls_to_cache w = URLS_TO_CACHE
  ∧ requested (on_install w).2 = requested w ++ (GET <$> URLS_TO_CACHE).
Proof.
  intros w.
  assert (Hw : urls_to_cache w = URLS_TO_CACHE) by apply dispatch_all_urls.
  repeat split; try done.
  by rewrite on_install_requested, Hw.
Qed.

(** C8, as the specification words it (five page paths plus four static asset
    paths), does not describe the list. *)
Lemma urls_to_cache_four_static_assets_counterexample :
  ¬ (∃ a b c d : string,
       URLS_TO_CACHE
       = ["/"; "/input"; "/report"; "/settings"; "/performance"; a; b; c; d])
  ∧ length (filter is_static_asset URLS_TO_CACHE) ≠ 4.
Proof.
  split.
  - intros (a & b & c & d & Heq). discriminate Heq.
  - vm_compute. discriminate.
Qed.

(** *** The properties on the sample worlds *)

Lemma fetch_cache_first_then_network_witness :
  on_fetch {| method := "POST"; url := "/input" |} sample_world
    = (NotIntercepted, sample_world)
  ∧ (∃ cached, stored (caches sample_world) (without_fragment "/") cached
       ∧ on_fetch (GET "/") sample_world
         = (RespondWith (Fulfilled cached), sample_world))
  ∧ (∃ cached, stored (caches sample_world) (without_fragment "/#top") cached
       ∧ on_fetch (GET "/#top") sample_world
         = (RespondWith (Fulfilled cached), sample_world))
  ∧ (∃ w', on_fetch (GET "/report") sample_world
             = (RespondWith (settle (network sample_world (GET "/report"))), w')
       ∧ requested w' = requested sample_world ++ [GET "/report"]
       ∧ caches w' = caches sample_world).
Proof.
  split; [|split; [|split]].
  - apply (fetch_cache_first_then_network
             {| method := "POST"; url := "/input" |} sample_world).
    simpl. discriminate.
  - apply (fetch_cache_first_then_network (GET "/") sample_world);
      [reflexivity|].
    exists "pwa-sales-app-v1", {[ "/" := sample_response "/" ]}.
    split; [apply list_elem_of_here | by eexists].
  - apply (fetch_cache_first_then_network (GET "/#top") sample_world);
      [reflexivity|].
    exists "pwa-sales-app-v1", {[ "/" := sample_response "/" ]}.
    split; [apply list_elem_of_here | by eexists].
  - apply (fetch_cache_first_then_network (GET "/report") sample_world);
      [reflexivity|].
    apply match_all_None. reflexivity.
Defined.

Lemma install_bulk_add_atomic_witness :
  ((on_install sample_world).1 = Fulfilled ()
   ∧ ∀ u, u ∈ URLS_TO_CACHE →
       ∃ r, network sample_world (GET u) = Some r
         ∧ entry (caches (on_install sample_world).2) CACHE_NAME u = Some r)
  ∧ ((on_install report_down_world).1 = Rejected
     ∧ ∀ name u,
         entry (caches (on_install report_down_world).2) name u
         = entry (caches report_down_world) name u)
  ∧ ((on_install report_missing_world).1 = Rejected
     ∧ ∀ name u,
         entry (caches (on_install report_missing_world).2) name u
         = entry (caches report_missing_world) name u)
  ∧ ((on_install partial_content_world).1 = Rejected
     ∧ ∀ name u,
         entry (caches (on_install partial_content_world).2) name u
         = entry (caches partial_content_world) name u).
Proof.
  split; [|split; [|split]].
  - apply (install_bulk_add_atomic sample_world); [reflexivity|].
    unfold URLS_TO_CACHE.
    repeat (apply Forall_cons; split;
            [eexists; split; vm_compute; reflexivity|]).
    apply Forall_nil_2.
  - apply (install_bulk_add_atomic report_down_world); [reflexivity|].
    apply Exists_cons_tl, Exists_cons_tl, Exists_cons_hd.
    intros (r & Hr & _). discriminate Hr.
  - apply (install_bulk_add_atomic report_missing_world); [reflexivity|].
    apply Exists_cons_tl, Exists_cons_tl, Exists_cons_hd.
    intros (r & Hr & Hok). vm_compute in Hr. injection Hr as <-.
    discriminate Hok.
  - apply (install_bulk_add_atomic partial_content_world); [reflexivity|].
    apply Exists_cons_hd.
    intros (r & Hr & Hok). vm_compute in Hr. injection Hr as <-.
    discriminate Hok.
Defined.

Lemma activate_deletes_exactly_stale_witness :
  "old-cache" ∉ cache_names (caches (on_activate sample_world).2)
  ↔ "old-cache" ≠ CACHE_NAME.
Proof.
  destruct (activate_deletes_exactly_stale sample_world) as (_ & H & _ & _).
  apply H. vm_compute. apply list_elem_of_further, list_elem_of_here.
Defined.

Lemma active_cache_name_is_version_witness :
  "pwa-sales-app-v1" = CACHE_NAME
  ∧ ("pwa-sales-app-v1" ∈ cache_names (caches sample_world)
     ∨ "pwa-sales-app-v1" = CACHE_NAME).
Proof.
  destruct (active_cache_name_is_version sample_world "pwa-sales-app-v1")
    as [Hact Hinst].
  split.
  - apply Hact. vm_compute. apply list_elem_of_here.
  - apply Hinst. vm_compute. apply list_elem_of_here.
Defined.

End ServiceWorkerSpec.

(** ** Properties of the page-transition handler *)

Module TransitionSpec.
Import Transition.

Lemma matches_a_data_transition_spec (e : Element) :
  matches_a_data_transition e = true ↔ is_transition_link e.
Proof.
  unfold matches_a_data_transition, is_transition_link.
  rewrite andb_true_iff, !bool_decide_eq_true. done.
Qed.

Lemma closest_Some els path link :
  closest els path = Some link → is_transition_link link.
Proof.
  induction path as [|i path IH]; simpl; [done|].
  destruct (els !! i) as [e|]; [|done].
  destruct (matches_a_data_transition e) eqn:He; [|done].
  intros [= <-]. by apply matches_a_data_transition_spec.
Qed.

Lemma closest_None els path :
  (∀ i e, i ∈ path → els !! i = Some e → ¬ is_transition_link e) →
  closest els path = None.
Proof.
  induction path as [|i path IH]; intros Hno; simpl; [done|].
  assert (Hrest : closest els path = None).
  { apply IH. intros j e Hj. apply Hno. by apply list_elem_of_further. }
  destruct (els !! i) as [e|] eqn:Hi; [|done].
  destruct (matches_a_data_transition e) eqn:He; [|done].
  exfalso. apply (Hno i e); [apply list_elem_of_here | done |].
  by apply matches_a_data_transition_spec.
Qed.

(** What the listener does with a click it takes over. *)
Lemma click_listener_intercepted shell event p link url :
  intercepted p event link url →
  click_listener shell event p
  = (preventDefault event,
     setTimeout (SetLocationHref url) 180
       (classList_add shell
          (if bool_decide (dataset_transition link = Some "back")
           then "page-slide-out-right" else "page-slide-out-left") p)).
Proof.
  intros (Hlink & Hhref & Hne & Hhttp). unfold click_listener.
  rewrite Hlink, Hhref, Hhttp. rewrite bool_decide_eq_false_2 by done. simpl.
  by destruct (bool_decide (dataset_transition link = Some "back")).
Qed.

Lemma add_token_elem c (tokens : list string) : c ∈ add_token c tokens.
Proof.
  unfold add_token. destruct (decide (c ∈ tokens)); [done|].
  apply elem_of_app. right. apply list_elem_of_here.
Qed.

Lemma classList_add_lookup el c p e :
  elements p !! el = Some e →
  ∃ e', elements (classList_add el c p) !! el = Some e'
    ∧ classList e' = add_token c (classList e)
    ∧ tagName e' = tagName e ∧ attributes e' = attributes e.
Proof.
  intros He. unfold classList_add. simpl.
  rewrite list_lookup_alter_eq, He. simpl. eexists. by split.
Qed.

(** *** Which class the listener adds *)

(** C4, as the code has it. For a click the listener takes over (the nearest
    transition link has a non-empty href that does not start with "http"),
    [preventDefault] is called and the shell element gets the class
    "page-slide-out-right" when the link's data-transition is "back", and the
    class "page-slide-out-left" for every other value; nothing else about the
    shell changes. *)
Theorem click_adds_page_slide_class shell event p link url e :
  intercepted p event link url →
  elements p !! shell = Some e →
  defaultPrevented (click_listener shell event p).1 = true
  ∧ ∃ e', elements (click_listener shell event p).2 !! shell = Some e'
      ∧ tagName e' = tagName e ∧ attributes e' = attributes e
      ∧ (dataset_transition link = Some "back" →
           classList e' = add_token "page-slide-out-right" (classList e)
           ∧ "page-slide-out-right" ∈ classList e')
      ∧ (dataset_transition link ≠ Some "back" →
           classList e' = add_token "page-slide-out-left" (classList e)
           ∧ "page-slide-out-left" ∈ classList e').
Proof.
  intros Hint He. rewrite (click_listener_intercepted _ _ _ _ _ Hint). simpl.
  split; [done|].
  destruct (classList_add_lookup shell
              (if bool_decide (dataset_transition link = Some "back")
               then "page-slide-out-right" else "page-slide-out-left") p e He)
    as (e' & He' & Hcl & Htag & Hattr).
  exists e'. repeat split; try done.
  - rewrite Hcl. by rewrite bool_decide_eq_true_2.
  - rewrite Hcl. rewrite bool_decide_eq_true_2 by done. apply add_token_elem.
  - rewrite Hcl. by rewrite bool_decide_eq_false_2.
  - rewrite Hcl. rewrite bool_decide_eq_false_2 by done. apply add_token_elem.
Qed.

Lemma click_adds_page_slide_class_witness :
  defaultPrevented (click_listener 0 click_on_back_label sample_page).1 = true
  ∧ ∃ e', elements (click_listener 0 click_on_back_label sample_page).2 !! 0
          = Some e'
      ∧ tagName e' = tagName sample_shell
      ∧ attributes e' = attributes sample_shell
      ∧ (dataset_transition sample_back_link = Some "back" →
           classList e'
           = add_token "page-slide-out-right" (classList sample_shell)
           ∧ "page-slide-out-right" ∈ classList e')
      ∧ (dataset_transition sample_back_link ≠ Some "back" →
           classList e'
           = add_token "page-slide-out-left" (classList sample_shell)
           ∧ "page-slide-out-left" ∈ classList e').
Proof.
  apply (click_adds_page_slide_class 0 click_on_back_label sample_page
           sample_back_link "/input" sample_shell).
  - unfold intercepted. split_and!; try reflexivity. discriminate.
  - reflexivity.
Defined.

(** C4, as the specification words it (the classes "slide-out-right" and
    "slide-out-left"), fails: a click on the label of the sample page's back
    link is taken over, the link's data-transition is "back", and the shell
    ends with the classes "app-shell" and "page-slide-out-right", of which
    none is "slide-out-right". *)
Lemma click_slide_out_right_counterexample :
  intercepted sample_page click_on_back_label sample_back_link "/input"
  ∧ dataset_transition sample_back_link = Some "back"
  ∧ classList <$> elements (click_listener 0 click_on_back_label sample_page).2 !! 0
    = Some ["app-shell"; "page-slide-out-right"]
  ∧ "slide-out-right" ∉ ["app-shell"; "page-slide-out-right"].
Proof.
  split; [|split; [|split]].
  - unfold intercepted. split_and!; try reflexivity. discriminate.
  - reflexivity.
  - reflexivity.
  - intros Hin. apply elem_of_cons in Hin as [Heq|Hin]; [discriminate|].
    apply elem_of_cons in Hin as [Heq|Hin]; [discriminate|].
    by apply elem_of_nil in Hin.
Qed.

(** *** Clicks the listener lets through *)

(** C5. When the nearest transition link has no href, an empty href, or an
    href that starts with "http", the listener changes nothing: the event is
    returned as it came (default navigation is not prevented) and the page is
    the same (no class added, no timer set). *)
Theorem click_empty_or_external_href_ignored shell event p link :
  closest (elements p) (target_path event) = Some link →
  getAttribute link "href" = None
  ∨ getAttribute link "href" = Some EmptyString
  ∨ (∃ url, getAttribute link "href" = Some url ∧ startsWith url "http" = true) →
  click_listener shell event p = (event, p).
Proof.
  intros Hlink Hhref. unfold click_listener. rewrite Hlink.
  destruct Hhref as [-> | [-> | (url & -> & Hhttp)]]; [done | done |].
  rewrite Hhttp. by rewrite orb_true_r.
Qed.

Lemma click_empty_or_external_href_ignored_witness :
  click_listener 0 click_on_external sample_page
  = (click_on_external, sample_page).
Proof.
  apply (click_empty_or_external_href_ignored 0 click_on_external sample_page
           sample_external_link).
  - reflexivity.
  - right. right. exists "https://example.com/". split; reflexivity.
Defined.

(** C7. When neither the target of the click nor any of its ancestors is an
    anchor carrying data-transition, the listener changes nothing: the event
    is returned as it came and the page is the same. *)
Theorem click_outside_transition_link_ignored shell event p :
  (∀ i e, i ∈ target_path event → elements p !! i = Some e →
          ¬ is_transition_link e) →
  click_listener shell event p = (event, p).
Proof.
  intros Hno. unfold click_listener. by rewrite (closest_None _ _ Hno).
Qed.

Lemma click_outside_transition_link_ignored_witness :
  click_listener 0 click_on_plain sample_page = (click_on_plain, sample_page).
Proof.
  apply (click_outside_transition_link_ignored 0 click_on_plain sample_page).
  intros i e Hi He [Htag [v Hattr]]. simpl in Hi.
  apply elem_of_cons in Hi as [->|Hi].
  - injection He as <-. discriminate Hattr.
  - apply elem_of_cons in Hi as [->|Hi]; [|by apply elem_of_nil in Hi].
    injection He as <-. discriminate Htag.
Defined.

(** *** The delayed navigation *)

(** The listeners of the body, run in order on an event and a page. *)
Lemma run_listeners_frame (listeners : list nat) (ep : ClickEvent * Page) :
  let ep' := foldl (λ ep shell, click_listener shell ep.1 ep.2) ep listeners in
  clock ep'.2 = clock ep.2
  ∧ location_assignments ep'.2 = location_assignments ep.2
  ∧ body_click_listeners ep'.2 = body_click_listeners ep.2
  ∧ (∀ t, t ∈ timers ep.2 → t ∈ timers ep'.2).
Proof.
  revert ep. induction listeners as [|shell listeners IH]; intros ep; simpl.
  - done.
  - destruct (IH (click_listener shell ep.1 ep.2)) as (Hc & Hl & Hb & Ht).
    rewrite Hc, Hl, Hb. clear IH Hc Hl Hb.
    assert (Hone : clock (click_listener shell ep.1 ep.2).2 = clock ep.2
      ∧ location_assignments (click_listener shell ep.1 ep.2).2
        = location_assignments ep.2
      ∧ body_click_listeners (click_listener shell ep.1 ep.2).2
        = body_click_listeners ep.2
      ∧ (∀ t, t ∈ timers ep.2 → t ∈ timers (click_listener shell ep.1 ep.2).2)).
    { unfold click_listener.
      destruct (closest (elements ep.2) (target_path ep.1)) as [link|]; [|done].
      destruct (getAttribute link "href") as [url|]; [|done].
      destruct (bool_decide (url = EmptyString) || startsWith url "http");
        [done|].
      destruct (bool_decide (dataset_transition link = Some "back")); simpl;
        (split_and!; [done..|]); intros t Ht'; apply elem_of_app; by left. }
    destruct Hone as (Hc & Hl & Hb & Ht1). split_and!; [done..|].
    intros t Hin. by apply Ht, Ht1.
Qed.

Lemma run_callbacks_keep now (due_timers : list Timer) log x :
  x ∈ log →
  x ∈ foldl (λ log t, run_callback now (callback t) log) log due_timers.
Proof.
  revert log. induction due_timers as [|t ts IH]; intros log Hx; simpl; [done|].
  apply IH. destruct (callback t). simpl. apply elem_of_app. by left.
Qed.

Lemma run_callbacks_fire now (due_timers : list Timer) log t url :
  t ∈ due_timers → callback t = SetLocationHref url →
  (now, url)
    ∈ foldl (λ log t, run_callback now (callback t) log) log due_timers.
Proof.
  intros Hin Hcb. revert log.
  induction due_timers as [|t' ts IH]; intros log; simpl.
  - by apply elem_of_nil in Hin.
  - apply elem_of_cons in Hin as [<-|Hin].
    + apply run_callbacks_keep. rewrite Hcb. simpl.
      apply elem_of_app. right. apply list_elem_of_here.
    + by apply IH.
Qed.

Lemma step_pending_or_fired t url e q :
  callback t = SetLocationHref url →
  pending_or_fired t url q → pending_or_fired t url (step e q).
Proof.
  unfold pending_or_fired. intros Hcb Hinv. destruct e as [path|]; simpl.
  - unfold dispatch_click.
    destruct (run_listeners_frame (body_click_listeners q)
                ({| target_path := path; defaultPrevented := false |}, q))
      as (Hc & Hl & _ & Ht). simpl in *.
    destruct Hinv as [[Hlt Hin] | [Hle Hin]].
    + left. rewrite Hc. split; [done | by apply Ht].
    + right. rewrite Hc, Hl. by split.
  - unfold tick. destruct Hinv as [[Hlt Hin] | [Hle Hin]]; simpl.
    + destruct (decide (S (clock q) < due t)) as [Hlater|Hnow].
      * left. split; [done|]. apply list_elem_of_filter. by split.
      * right. assert (Hdue : due t = S (clock q)) by lia.
        split; [lia|]. rewrite Hdue.
        apply (run_callbacks_fire _ _ _ t); [|done].
        apply list_elem_of_filter. split; [lia | done].
    + right. split; [lia|]. by apply run_callbacks_keep.
Qed.

Lemma run_pending_or_fired t url es q :
  callback t = SetLocationHref url →
  pending_or_fired t url q → pending_or_fired t url (run es q).
Proof.
  intros Hcb. unfold run. revert q.
  induction es as [|e es IH]; intros q Hinv; simpl; [done|].
  by apply IH, step_pending_or_fired.
Qed.

(** C6. For a click the listener takes over, the listener sets one timer, due
    180 ms after the click, whose callback assigns exactly the link's href to
    [window.location.href]. Whatever clicks follow, the timer stays in the
    queue as long as less than 180 ms have passed, and once 180 ms have passed
    the assignment has been made, at the time the timer was due: the script
    has no way to take the timer back. *)
Theorem click_navigates_after_180ms shell event p link url
    (es : list PageEvent) :
  intercepted p event link url →
  let p' := (click_listener shell event p).2 in
  let q := run es p' in
  timers p' = timers p ++ [navigation_timer p url]
  ∧ (clock q < clock p + 180 → navigation_timer p url ∈ timers q)
  ∧ (clock p + 180 ≤ clock q →
       (clock p + 180, url) ∈ location_assignments q).
Proof.
  intros Hint p' q.
  assert (Hp' : timers p' = timers p ++ [navigation_timer p url]
                ∧ clock p' = clock p).
  { unfold p'. rewrite (click_listener_intercepted _ _ _ _ _ Hint). done. }
  destruct Hp' as [Htimers Hclock]. split; [done|].
  assert (Hinv : pending_or_fired (navigation_timer p url) url q).
  { apply run_pending_or_fired; [done|]. left. simpl. split; [lia|].
    rewrite Htimers. apply elem_of_app. right. apply list_elem_of_here. }
  destruct Hinv as [[Hlt Hin] | [Hle Hin]]; simpl in *; split; intros ?;
    first [done | lia].
Qed.

Lemma click_navigates_after_180ms_witness :
  (clock sample_page + 180, "/input")
    ∈ location_assignments
        (run (replicate 90 Tick ++ [Click [3; 0]] ++ replicate 90 Tick)
             (click_listener 0 click_on_back_label sample_page).2).
Proof.
  destruct (click_navigates_after_180ms 0 click_on_back_label sample_page
              sample_back_link "/input"
              (replicate 90 Tick ++ [Click [3; 0]] ++ replicate 90 Tick))
    as (_ & _ & Hfired).
  - unfold intercepted. split_and!; try reflexivity. discriminate.
  - apply Hfired. vm_compute. lia.
Defined.

(** *** A document without a shell *)

(** C10. When no element of the document has the class "app-shell" as
    [DOMContentLoaded] fires, no click listener is attached, and after any
    clicks and any passing of time a click, also one on a transition link
    with a same-origin href, leaves the event unprevented and the page as it
    was: the elements are the document's, no timer is pending and no
    navigation has been made. *)
Theorem no_shell_no_transition (els : list Element) (es : list PageEvent)
    (path : list nat) :
  Forall (λ e, "app-shell" ∉ classList e) els →
  let q := run es (on_DOMContentLoaded (document_parsed els)) in
  body_click_listeners (on_DOMContentLoaded (document_parsed els)) = []
  ∧ dispatch_click path q
    = ({| target_path := path; defaultPrevented := false |}, q)
  ∧ elements q = els
  ∧ timers q = []
  ∧ location_assignments q = [].
Proof.
  intros Hnone.
  assert (Hloaded : on_DOMContentLoaded (document_parsed els)
                    = document_parsed els).
  { unfold on_DOMContentLoaded, querySelector_class. simpl.
    by rewrite (proj2 (list_find_None _ _) Hnone). }
  rewrite Hloaded. simpl.
  assert (Hinv : ∀ p, body_click_listeners p = [] ∧ elements p = els
                      ∧ timers p = [] ∧ location_assignments p = [] →
                 body_click_listeners (run es p) = []
                 ∧ elements (run es p) = els
                 ∧ timers (run es p) = []
                 ∧ location_assignments (run es p) = []).
  { unfold run. induction es as [|e es IH]; intros p Hp; simpl; [done|].
    apply IH. destruct Hp as (Hb & He & Ht & Hl).
    destruct e as [path'|]; simpl.
    - unfold dispatch_click. rewrite Hb. simpl. done.
    - rewrite Hb, He, Ht, Hl. done. }
  destruct (Hinv (document_parsed els)) as (Hb & He & Ht & Hl); [done|].
  split_and!; try done.
  unfold dispatch_click. by rewrite Hb.
Qed.

Lemma no_shell_no_transition_witness :
  let q := run [Click [1; 0]; Tick; Click [2; 0]]
               (on_DOMContentLoaded (document_parsed shell_less_elements)) in
  body_click_listeners (on_DOMContentLoaded (document_parsed shell_less_elements))
    = []
  ∧ dispatch_click [1; 0] q
    = ({| target_path := [1; 0]; defaultPrevented := false |}, q)
  ∧ elements q = shell_less_elements
  ∧ timers q = []
  ∧ location_assignments q = [].
Proof.
  apply (no_shell_no_transition shell_less_elements
           [Click [1; 0]; Tick; Click [2; 0]] [1; 0]).
  unfold shell_less_elements.
  repeat (apply Forall_cons; split;
          [intros Hin; simpl in Hin;
           repeat (apply elem_of_cons in Hin as [Heq|Hin]; [discriminate|]);
           by apply elem_of_nil in Hin|]).
  apply Forall_nil_2.
Defined.

End TransitionSpec.

(** ** Further properties of the offline cache worker *)

Module ServiceWorkerMore.
Import ServiceWorker ServiceWorkerSpec.

(** *** What an install does to the entries *)

Lemma fetch_all_is_Some net (urls : list string) :
  is_Some (fetch_all net urls) ↔ Forall (fetch_succeeds net) urls.
Proof.
  split; [|apply fetch_all_Some].
  intros [entries Hsome]. apply Forall_forall. intros u Hu.
  destruct (fetch_all_inv _ _ _ Hsome) as [_ Hin].
  destruct (Hin u Hu) as (r & ? & ? & _). by exists r.
Qed.

(** X1. An install, succeed or fail, changes no entry of another cache and no
    entry of the current cache for a URL that is not on the list. *)
Theorem install_touches_only_listed_urls (w : World) name u :
  urls_to_cache w = URLS_TO_CACHE →
  name ≠ CACHE_NAME ∨ u ∉ URLS_TO_CACHE →
  entry (caches (on_install w).2) name u = entry (caches w) name u.
Proof.
  intros Hurls Hout.
  destruct (on_install_entries w name u Hurls) as [Hyes Hno].
  destruct (fetch_all (network w) URLS_TO_CACHE) as [entries|] eqn:Hall.
  - assert (Hok : Forall (fetch_succeeds (network w)) URLS_TO_CACHE).
    { apply fetch_all_is_Some. by eexists. }
    destruct (Hyes Hok) as [_ ->].
    apply decide_False. intros [? ?]. by destruct Hout.
  - assert (Hnot : ¬ Forall (fetch_succeeds (network w)) URLS_TO_CACHE).
    { intros Hok. apply fetch_all_is_Some in Hok as [? ?]. congruence. }
    by destruct (Hno Hnot).
Qed.

Lemma install_touches_only_listed_urls_witness :
  entry (caches (on_install sample_world).2) "old-cache" "/old"
  = entry (caches sample_world) "old-cache" "/old".
Proof.
  apply (install_touches_only_listed_urls sample_world "old-cache" "/old").
  - reflexivity.
  - left. discriminate.
Defined.

(** X2. Whatever the outcome of an install, a cache named [CACHE_NAME] exists
    afterwards; when the install is rejected and there was no such cache
    before, the one left behind is empty. *)
Theorem install_leaves_current_cache (w : World) :
  is_Some (find_cache CACHE_NAME (caches (on_install w).2))
  ∧ ((on_install w).1 = Rejected →
     find_cache CACHE_NAME (caches w) = None →
     find_cache CACHE_NAME (caches (on_install w).2) = Some ∅).
Proof.
  destruct (caches_open_spec CACHE_NAME w)
    as (w1' & Hopen' & _ & _ & _ & Hfind' & _).
  destruct (on_install_run w)
    as (w1 & c0 & Hopen & Hfind & _ & _ & _ & _ & Hrun).
  rewrite Hopen in Hopen'. injection Hopen' as <-.
  destruct Hrun as [(Hres & entries & _ & _ & ->) | (_ & _ & ->)].
  - split.
    + rewrite find_set_cache by (rewrite Hfind; eauto). eauto.
    + rewrite Hres. discriminate.
  - split; [rewrite Hfind; eauto|].
    intros _ Hnone. rewrite Hfind'. by rewrite Hnone.
Qed.

Lemma install_leaves_current_cache_witness :
  find_cache CACHE_NAME (caches (on_install first_install_offline_world).2)
  = Some ∅.
Proof.
  destruct (install_leaves_current_cache first_install_offline_world)
    as [_ Hempty].
  apply Hempty; reflexivity.
Defined.

(** *** Serving from the cache *)

Lemma on_fetch_GET request (w : World) :
  method request = "GET" →
  on_fetch request w
  = match match_all (without_fragment (url request)) (caches w) with
    | Some r => (RespondWith (Fulfilled r), w)
    | None => (RespondWith (settle (network w request)),
               with_requested (requested w ++ [request]) w)
    end.
Proof.
  intros Hm. unfold on_fetch, then_, caches_match, fetch, resolve.
  rewrite decide_False by (intros Hne; by apply Hne).
  rewrite decide_True by done.
  destruct (match_all (without_fragment (url request)) (caches w)); [done|].
  by destruct (network w request).
Qed.

Lemma match_all_app u (cs1 cs2 : CacheStorage) :
  match_all u (cs1 ++ cs2)
  = match match_all u cs1 with
    | Some r => Some r
    | None => match_all u cs2
    end.
Proof.
  induction cs1 as [|[n c] cs1 IH]; simpl; [done|].
  by destruct (c !! u).
Qed.

Lemma match_all_current_only name u c r (cs : CacheStorage) :
  find_cache name cs = Some c → c !! u = Some r →
  match_all u (filter (λ nc, nc.1 = name) cs) = Some r.
Proof.
  intros Hfind Hr. induction cs as [|[n c0] cs IH]; [done|].
  cbn [find_cache] in Hfind. destruct (decide (n = name)) as [->|Hne].
  - injection Hfind as ->. rewrite filter_cons_True by done. simpl.
    by rewrite Hr.
  - rewrite filter_cons_False by done. by apply IH.
Qed.

(** X3. Once an install has succeeded (every listed URL brought a response
    the bulk add accepts) and the worker has been activated, a GET for any
    listed URL, with or without a fragment, is answered from the cache with
    the response the network gave during the install, and nothing is sent to
    the network, so the answer is the same whatever the network has become
    since (offline included). *)
Theorem installed_urls_served_without_network (w : World)
    (net' : Request → option Response) (request : Request) :
  urls_to_cache w = URLS_TO_CACHE →
  Forall (fetch_succeeds (network w)) URLS_TO_CACHE →
  method request = "GET" →
  without_fragment (url request) ∈ URLS_TO_CACHE →
  let w' := with_network net' (on_activate (on_install w).2).2 in
  (on_install w).1 = Fulfilled ()
  ∧ ∃ r, network w (GET (without_fragment (url request))) = Some r
      ∧ on_fetch request w' = (RespondWith (Fulfilled r), w').
Proof.
  intros Hurls Hall Hm Hu w'.
  destruct (on_install_entries w CACHE_NAME (without_fragment (url request))
              Hurls) as [Hyes _].
  destruct (Hyes Hall) as [Hres Hentry]. split; [done|].
  apply (proj1 (Forall_forall _ _) Hall) in Hu as Hok.
  destruct Hok as (r & Hr & _). exists r. split; [done|].
  rewrite decide_True, Hr in Hentry by done.
  unfold entry in Hentry.
  destruct (find_cache CACHE_NAME (caches (on_install w).2)) as [c|] eqn:Hfind;
    [|done].
  simpl in Hentry. rewrite (on_fetch_GET _ _ Hm). unfold w'.
  destruct (on_activate_spec (on_install w).2) as (bs & ->). simpl.
  by rewrite (match_all_current_only _ _ _ _ _ Hfind Hentry).
Qed.

Lemma installed_urls_served_without_network_witness :
  let w' := with_network offline (on_activate (on_install sample_world).2).2 in
  (on_install sample_world).1 = Fulfilled ()
  ∧ ∃ r, network sample_world
           (GET (without_fragment (url (GET "/report#totals")))) = Some r
      ∧ on_fetch (GET "/report#totals") w' = (RespondWith (Fulfilled r), w').
Proof.
  apply (installed_urls_served_without_network sample_world offline
           (GET "/report#totals")); [reflexivity | | reflexivity |].
  - unfold URLS_TO_CACHE.
    repeat (apply Forall_cons; split;
            [eexists; split; vm_compute; reflexivity|]).
    apply Forall_nil_2.
  - change (without_fragment (url (GET "/report#totals"))) with "/report".
    unfold URLS_TO_CACHE.
    apply list_elem_of_further, list_elem_of_further, list_elem_of_here.
Defined.

(** X4. The fetch listener looks in every cache, not only the current one: a
    GET is answered from the first cache, in creation order, that holds an
    entry for its URL (the fragment left out), whatever that cache is
    called. *)
Theorem fetch_serves_first_cache_in_order (request : Request) (w : World)
    (before after : CacheStorage) name (c : Cache) r :
  method request = "GET" →
  caches w = before ++ (name, c) :: after →
  ¬ has_entry before (without_fragment (url request)) →
  c !! without_fragment (url request) = Some r →
  on_fetch request w = (RespondWith (Fulfilled r), w).
Proof.
  intros Hm Hcs Hno Hr. rewrite (on_fetch_GET _ _ Hm), Hcs, match_all_app.
  apply match_all_None in Hno. rewrite Hno. simpl. by rewrite Hr.
Qed.

Lemma fetch_serves_first_cache_in_order_witness :
  on_fetch (GET "/old") sample_world
  = (RespondWith (Fulfilled (sample_response "/old")), sample_world).
Proof.
  apply (fetch_serves_first_cache_in_order (GET "/old") sample_world
           [("pwa-sales-app-v1", {[ "/" := sample_response "/" ]})] []
           "old-cache" {[ "/old" := sample_response "/old" ]}).
  - reflexivity.
  - reflexivity.
  - apply match_all_None. reflexivity.
  - reflexivity.
Defined.

(** X5. After activation the entries of stale caches are out of reach: a GET
    for whose URL (the fragment left out) no cache named [CACHE_NAME] holds
    an entry goes to the network, also when a stale cache held a response
    for it before. *)
Theorem stale_entries_not_served_after_activate (request : Request)
    (w : World) :
  method request = "GET" →
  (∀ c : Cache, (CACHE_NAME, c) ∈ caches w →
                c !! without_fragment (url request) = None) →
  ∃ w', on_fetch request (on_activate w).2
          = (RespondWith (settle (network w request)), w')
    ∧ requested w' = requested w ++ [request]
    ∧ caches w' = caches (on_activate w).2.
Proof.
  intros Hm Hnone. rewrite (on_fetch_GET _ _ Hm).
  destruct (on_activate_spec w) as (bs & ->). simpl.
  assert (Hmiss : match_all (without_fragment (url request))
                    (filter (λ nc, nc.1 = CACHE_NAME) (caches w)) = None).
  { apply match_all_None. intros (n & c & Hin & Hsome).
    apply list_elem_of_filter in Hin as [Hn Hin]. simpl in Hn. subst n.
    rewrite (Hnone c Hin) in Hsome. by destruct Hsome. }
  rewrite Hmiss. eexists. by split.
Qed.

Lemma stale_entries_not_served_after_activate_witness :
  ∃ w', on_fetch (GET "/old#part") (on_activate sample_world).2
          = (RespondWith (settle (network sample_world (GET "/old#part"))), w')
    ∧ requested w' = requested sample_world ++ [GET "/old#part"]
    ∧ caches w' = caches (on_activate sample_world).2.
Proof.
  apply (stale_entries_not_served_after_activate (GET "/old#part")
           sample_world).
  - reflexivity.
  - intros c Hin. simpl in Hin.
    apply elem_of_cons in Hin as [Heq|Hin].
    + injection Heq as ->. reflexivity.
    + apply elem_of_cons in Hin as [Heq|Hin]; [discriminate|].
      by apply elem_of_nil in Hin.
Defined.

(** *** Across the worker's life *)

Lemma on_fetch_caches request (w : World) :
  caches (on_fetch request w).2 = caches w.
Proof.
  unfold on_fetch. destruct (decide (method request ≠ "GET")); [done|].
  unfold then_, caches_match, fetch, resolve.
  destruct (decide (method request = "GET")); simpl.
  - destruct (match_all (without_fragment (url request)) (caches w)); [done|].
    by destruct (network w request).
  - by destruct (network w request).
Qed.

Lemma dispatch_names_NoDup (e : WorkerEvent) (w : World) :
  NoDup (cache_names (caches w)) →
  NoDup (cache_names (caches (dispatch e w))).
Proof.
  intros Hdup. destruct e as [| |request]; simpl.
  - rewrite on_install_names. unfold caches_open.
    destruct (find_cache CACHE_NAME (caches w)) eqn:Hfind; [done|]. simpl.
    apply find_cache_None in Hfind. unfold cache_names in *.
    rewrite fmap_app. apply NoDup_app. split_and!; [done| |].
    + intros n Hn Hin. apply list_elem_of_singleton in Hin. by subst n.
    + apply NoDup_singleton.
  - destruct (on_activate_spec w) as (bs & ->). simpl. unfold cache_names in *.
    apply (sublist_NoDup _ _ Hdup). apply fmap_sublist, sublist_filter.
  - by rewrite on_fetch_caches.
Qed.

(** X6. The worker never makes a second cache with a name that is taken: if
    the names of the caches are distinct, they are distinct after any sequence
    of install, activate and fetch events. *)
Theorem cache_names_stay_distinct (es : list WorkerEvent) (w : World) :
  NoDup (cache_names (caches w)) →
  NoDup (cache_names (caches (dispatch_all es w))).
Proof.
  unfold dispatch_all. revert w.
  induction es as [|e es IH]; intros w Hdup; simpl; [done|].
  by apply IH, dispatch_names_NoDup.
Qed.

Lemma cache_names_stay_distinct_witness :
  NoDup (cache_names
           (caches (dispatch_all [Install; Fetch (GET "/"); Activate; Install]
                                 sample_world))).
Proof.
  apply (cache_names_stay_distinct
           [Install; Fetch (GET "/"); Activate; Install] sample_world).
  vm_compute. apply NoDup_cons. split.
  - intros Hin. apply list_elem_of_singleton in Hin. discriminate.
  - apply NoDup_singleton.
Defined.

(** X7. Installing again under the same network changes nothing in the
    caches: when every listed fetch succeeds (it brings a response the bulk
    add accepts), the second install is fulfilled like the first and every
    cache holds the entries it held after the first. *)
Theorem install_again_same_entries (w : World) name u :
  urls_to_cache w = URLS_TO_CACHE →
  Forall (fetch_succeeds (network w)) URLS_TO_CACHE →
  (on_install w).1 = Fulfilled ()
  ∧ (on_install (on_install w).2).1 = Fulfilled ()
  ∧ entry (caches (on_install (on_install w).2).2) name u
    = entry (caches (on_install w).2) name u.
Proof.
  intros Hurls Hall.
  destruct (on_install_run w) as (_ & _ & _ & _ & _ & Hnet & Hurls1 & _).
  assert (Hurls' : urls_to_cache (on_install w).2 = URLS_TO_CACHE)
    by (by rewrite Hurls1).
  assert (Hall' : Forall (fetch_succeeds (network (on_install w).2))
                         URLS_TO_CACHE)
    by (by rewrite Hnet).
  destruct (on_install_entries w name u Hurls) as [Hfirst _].
  destruct (Hfirst Hall) as [Hres1 Hentry1].
  destruct (on_install_entries (on_install w).2 name u Hurls') as [Hsecond _].
  destruct (Hsecond Hall') as [Hres2 Hentry2].
  split_and!; [done | done |].
  rewrite Hentry2, Hnet, Hentry1.
  by destruct (decide (name = CACHE_NAME ∧ u ∈ URLS_TO_CACHE)).
Qed.

Lemma install_again_same_entries_witness :
  (on_install sample_world).1 = Fulfilled ()
  ∧ (on_install (on_install sample_world).2).1 = Fulfilled ()
  ∧ entry (caches (on_install (on_install sample_world).2).2) CACHE_NAME "/input"
    = entry (caches (on_install sample_world).2) CACHE_NAME "/input".
Proof.
  apply (install_again_same_entries sample_world CACHE_NAME "/input");
    [reflexivity|].
  unfold URLS_TO_CACHE.
  repeat (apply Forall_cons; split;
          [eexists; split; vm_compute; reflexivity|]).
  apply Forall_nil_2.
Defined.

(** X8. Activation works on Cache Storage only and is idempotent: it sends
    nothing to the network, and a second activation right after the first
    leaves the world as the first left it. *)
Theorem activate_again_changes_nothing (w : World) :
  requested (on_activate w).2 = requested w
  ∧ (on_activate (on_activate w).2).2 = (on_activate w).2.
Proof.
  destruct (on_activate_spec (on_activate w).2) as (bs' & ->).
  destruct (on_activate_spec w) as (bs & ->). simpl.
  split; [done|]. unfold with_caches. simpl. f_equal.
  apply list_filter_filter_l. done.
Qed.

End ServiceWorkerMore.

(** ** Further properties of the page-transition handler *)

Module TransitionMore.
Import Transition TransitionSpec.

(** *** What the script leaves alone *)

Lemma grown_from_refl e : grown_from e e.
Proof. by repeat split. Qed.

Lemma grown_from_trans e1 e2 e3 :
  grown_from e1 e2 → grown_from e2 e3 → grown_from e1 e3.
Proof.
  intros (Ht1 & Ha1 & Hc1) (Ht2 & Ha2 & Hc2). split_and!.
  - by rewrite Ht2.
  - by rewrite Ha2.
  - intros c Hc. by apply Hc2, Hc1.
Qed.

Lemma elements_grown_refl (els : list Element) : Forall2 grown_from els els.
Proof.
  apply Forall_Forall2_diag, Forall_forall. intros e _. apply grown_from_refl.
Qed.

Lemma elements_grown_trans (els1 els2 els3 : list Element) :
  Forall2 grown_from els1 els2 → Forall2 grown_from els2 els3 →
  Forall2 grown_from els1 els3.
Proof. apply Forall2_trans. apply grown_from_trans. Qed.

Lemma add_token_keeps c c' (tokens : list string) :
  c' ∈ tokens → c' ∈ add_token c tokens.
Proof.
  intros Hin. unfold add_token. destruct (decide (c ∈ tokens)); [done|].
  apply elem_of_app. by left.
Qed.

Lemma classList_add_grown el c p :
  Forall2 grown_from (elements p) (elements (classList_add el c p)).
Proof.
  unfold classList_add. simpl.
  apply Forall2_alter_r; [apply elements_grown_refl|].
  intros x y _ _ (Ht & Ha & Hc). split_and!; simpl; [done | done |].
  intros c' Hc'. by apply add_token_keeps, Hc.
Qed.

Lemma click_listener_grown shell event p :
  Forall2 grown_from (elements p) (elements (click_listener shell event p).2).
Proof.
  unfold click_listener.
  destruct (closest (elements p) (target_path event)) as [link|];
    [|apply elements_grown_refl].
  destruct (getAttribute link "href") as [url|]; [|apply elements_grown_refl].
  destruct (bool_decide (url = EmptyString) || startsWith url "http");
    [apply elements_grown_refl|].
  destruct (bool_decide (dataset_transition link = Some "back")); simpl;
    apply classList_add_grown.
Qed.

Lemma run_listeners_grown (listeners : list nat) (ep : ClickEvent * Page) :
  Forall2 grown_from (elements ep.2)
    (elements (foldl (λ ep shell, click_listener shell ep.1 ep.2)
                     ep listeners).2).
Proof.
  revert ep. induction listeners as [|shell listeners IH]; intros ep; simpl.
  - apply elements_grown_refl.
  - eapply elements_grown_trans; [|apply IH]. apply click_listener_grown.
Qed.

Lemma step_grown e p : Forall2 grown_from (elements p) (elements (step e p)).
Proof.
  destruct e as [path|]; simpl.
  - apply (run_listeners_grown (body_click_listeners p)
             ({| target_path := path; defaultPrevented := false |}, p)).
  - apply elements_grown_refl.
Qed.

Lemma run_grown es p : Forall2 grown_from (elements p) (elements (run es p)).
Proof.
  unfold run. revert p. induction es as [|e es IH]; intros p; simpl.
  - apply elements_grown_refl.
  - eapply elements_grown_trans; [apply step_grown | apply IH].
Qed.

(** X9. Whatever is clicked and however much time passes, the script removes
    nothing from the document: the page has the same elements in the same
    order, each with its tag, its attributes and every class it had. *)
Theorem script_only_adds_classes (es : list PageEvent) (p : Page) :
  length (elements (run es p)) = length (elements p)
  ∧ ∀ i e, elements p !! i = Some e →
      ∃ e', elements (run es p) !! i = Some e' ∧ grown_from e e'.
Proof.
  pose proof (run_grown es p) as Hgrown. split.
  - symmetry. by eapply Forall2_length.
  - intros i e He. by eapply Forall2_lookup_l.
Qed.

Lemma script_only_adds_classes_witness :
  ∃ e', elements (run [Click [2; 1; 0]; Tick; Click [3; 0]] sample_page) !! 0
        = Some e'
    ∧ grown_from sample_shell e'.
Proof.
  destruct (script_only_adds_classes [Click [2; 1; 0]; Tick; Click [3; 0]]
              sample_page) as [_ Hkeep].
  apply Hkeep. reflexivity.
Defined.

(** X10. One run of the click listener changes no element other than the
    shell it was attached for, and neither the clock nor the assignments made
    to the location so far. *)
Theorem click_listener_changes_shell_only shell event p i :
  i ≠ shell →
  elements (click_listener shell event p).2 !! i = elements p !! i
  ∧ clock (click_listener shell event p).2 = clock p
  ∧ location_assignments (click_listener shell event p).2
    = location_assignments p.
Proof.
  intros Hne. unfold click_listener.
  destruct (closest (elements p) (target_path event)) as [link|]; [|done].
  destruct (getAttribute link "href") as [url|]; [|done].
  destruct (bool_decide (url = EmptyString) || startsWith url "http"); [done|].
  destruct (bool_decide (dataset_transition link = Some "back")); simpl;
    (split; [|done]); by apply list_lookup_alter_ne.
Qed.

Lemma click_listener_changes_shell_only_witness :
  elements (click_listener 0 click_on_back_label sample_page).2 !! 1
    = elements sample_page !! 1
  ∧ clock (click_listener 0 click_on_back_label sample_page).2
    = clock sample_page
  ∧ location_assignments (click_listener 0 click_on_back_label sample_page).2
    = location_assignments sample_page.
Proof.
  apply (click_listener_changes_shell_only 0 click_on_back_label sample_page 1).
  discriminate.
Defined.

(** *** Which link decides, and which shell *)

Lemma matches_grown e e' :
  grown_from e e' →
  matches_a_data_transition e' = matches_a_data_transition e.
Proof.
  intros (Ht & Ha & _). unfold matches_a_data_transition. by rewrite Ht, Ha.
Qed.

Lemma closest_grown (els els' : list Element) path :
  Forall2 grown_from els els' →
  option_Forall2 grown_from (closest els path) (closest els' path).
Proof.
  intros Hgrown. induction path as [|i path IH]; simpl; [constructor|].
  destruct (proj1 (Forall2_lookup _ _ _) Hgrown i) as [e e' He|];
    [|done].
  rewrite (matches_grown _ _ He).
  destruct (matches_a_data_transition e); [by constructor | done].
Qed.

Lemma takes_over_grown (els els' : list Element) path :
  Forall2 grown_from els els' → takes_over els' path = takes_over els path.
Proof.
  intros Hgrown. unfold takes_over.
  destruct (closest_grown els els' path Hgrown) as [link link' (_ & Ha & _)|];
    [|done].
  unfold getAttribute. by rewrite Ha.
Qed.

Lemma takes_over_intercepted p event :
  takes_over (elements p) (target_path event) = true ↔
  ∃ link url, intercepted p event link url.
Proof.
  unfold takes_over, intercepted. split.
  - destruct (closest (elements p) (target_path event)) as [link|]; [|done].
    destruct (getAttribute link "href") as [url|] eqn:Hhref; [|done].
    intros Hgo. apply negb_true_iff, orb_false_iff in Hgo as [Hne Hhttp].
    apply bool_decide_eq_false in Hne. exists link, url. by rewrite Hhref.
  - intros (link & url & -> & -> & Hne & ->).
    by rewrite bool_decide_eq_false_2.
Qed.

Lemma closest_nearest (els : list Element) (inner outer : list nat) i link :
  (∀ j e, j ∈ inner → els !! j = Some e → ¬ is_transition_link e) →
  els !! i = Some link →
  is_transition_link link →
  closest els (inner ++ i :: outer) = Some link.
Proof.
  intros Hinner Hi Hlink. induction inner as [|j inner IH]; simpl.
  - rewrite Hi. by rewrite (proj2 (matches_a_data_transition_spec link) Hlink).
  - assert (Hrest : closest els (inner ++ i :: outer) = Some link).
    { apply IH. intros k e Hk. apply Hinner. by apply list_elem_of_further. }
    destruct (els !! j) as [e|] eqn:Hj; [|done].
    destruct (matches_a_data_transition e) eqn:He; [|done].
    exfalso. apply (Hinner j e); [apply list_elem_of_here | done |].
    by apply matches_a_data_transition_spec.
Qed.

(** X11. The nearest transition link decides what the listener does, whatever
    lies above it on the click's path: when the first elements of the path
    are no transition links and the next one is, the listener takes the click
    over with that link's href and that link's class if the href is not
    empty and does not start with "http" (it prevents the default, adds the
    class to the shell and sets the timer for that href), and does nothing
    at all if the href is missing, empty or starts with "http". *)
Theorem nearest_transition_link_decides shell p event
    (inner outer : list nat) i link :
  target_path event = inner ++ i :: outer →
  (∀ j e, j ∈ inner → elements p !! j = Some e → ¬ is_transition_link e) →
  elements p !! i = Some link →
  is_transition_link link →
  (∀ url, getAttribute link "href" = Some url →
          url ≠ EmptyString →
          startsWith url "http" = false →
          click_listener shell event p
          = (preventDefault event,
             setTimeout (SetLocationHref url) 180
               (classList_add shell (slide_class link) p)))
  ∧ (getAttribute link "href" = None
     ∨ getAttribute link "href" = Some EmptyString
     ∨ (∃ url, getAttribute link "href" = Some url
               ∧ startsWith url "http" = true) →
     click_listener shell event p = (event, p)).
Proof.
  intros Hpath Hinner Hi Hlink.
  assert (Hclosest : closest (elements p) (target_path event) = Some link).
  { rewrite Hpath. by apply closest_nearest. }
  split.
  - intros url Hhref Hne Hhttp.
    by apply click_listener_intercepted.
  - intros Hhref. unfold click_listener. rewrite Hclosest.
    destruct Hhref as [-> | [-> | (url & -> & Hhttp)]]; [done | done |].
    rewrite Hhttp. by rewrite orb_true_r.
Qed.

Lemma nearest_transition_link_decides_witness :
  click_listener 0 click_on_back_label sample_page
  = (preventDefault click_on_back_label,
     setTimeout (SetLocationHref "/input") 180
       (classList_add 0 (slide_class sample_back_link) sample_page))
  ∧ click_listener 0 click_on_external sample_page
    = (click_on_external, sample_page).
Proof.
  split.
  - apply (nearest_transition_link_decides 0 sample_page click_on_back_label
             [2] [0] 1 sample_back_link).
    + reflexivity.
    + intros j e Hj He [Htag _]. apply list_elem_of_singleton in Hj. subst j.
      injection He as <-. discriminate Htag.
    + reflexivity.
    + split; [reflexivity | by eexists].
    + reflexivity.
    + discriminate.
    + reflexivity.
  - apply (nearest_transition_link_decides 0 sample_page click_on_external
             [] [0] 4 sample_external_link).
    + reflexivity.
    + intros j e Hj. by apply elem_of_nil in Hj.
    + reflexivity.
    + split; [reflexivity | by eexists].
    + right. right. exists "https://example.com/". split; reflexivity.
Defined.

(** X12. When the document has elements of class "app-shell", the listener is
    attached once, for the first of them in tree order: a click on the loaded
    page is handled by the click listener of that element and by nothing
    else. *)
Theorem listener_bound_to_first_shell (els : list Element) i e
    (path : list nat) :
  els !! i = Some e →
  "app-shell" ∈ classList e →
  (∀ j e', els !! j = Some e' → j < i → "app-shell" ∉ classList e') →
  let p := on_DOMContentLoaded (document_parsed els) in
  body_click_listeners p = [i]
  ∧ dispatch_click path p
    = click_listener i {| target_path := path; defaultPrevented := false |} p.
Proof.
  intros Hi Hshell Hfirst.
  assert (Hq : querySelector_class "app-shell" els = Some i).
  { unfold querySelector_class.
    rewrite (proj2 (list_find_Some (λ e, "app-shell" ∈ classList e) els i e));
      done. }
  unfold on_DOMContentLoaded. simpl. rewrite Hq. by split.
Qed.

Lemma listener_bound_to_first_shell_witness :
  let p := on_DOMContentLoaded (document_parsed sample_elements) in
  body_click_listeners p = [0]
  ∧ dispatch_click [2; 1; 0] p
    = click_listener 0
        {| target_path := [2; 1; 0]; defaultPrevented := false |} p.
Proof.
  apply (listener_bound_to_first_shell sample_elements 0 sample_shell
           [2; 1; 0]).
  - reflexivity.
  - apply list_elem_of_here.
  - intros j e' _ Hlt. lia.
Defined.

(** *** Classes stay, clicks pile up *)

(** X13. The class added for a click that was taken over is never taken off
    again: whatever is clicked afterwards and however much time passes, the
    shell still has it. *)
Theorem slide_class_stays shell event p link url e (es : list PageEvent) :
  intercepted p event link url →
  elements p !! shell = Some e →
  ∃ e', elements (run es (click_listener shell event p).2) !! shell = Some e'
    ∧ slide_class link ∈ classList e'.
Proof.
  intros Hint He. rewrite (click_listener_intercepted _ _ _ _ _ Hint). simpl.
  destruct (classList_add_lookup shell (slide_class link) p e He)
    as (e1 & He1 & Hcl & _).
  destruct (Forall2_lookup_l _ _ _ shell e1
              (run_grown es (setTimeout (SetLocationHref url) 180
                               (classList_add shell (slide_class link) p))))
    as (e' & He' & _ & _ & Hkeep); [done|].
  exists e'. split; [done|]. apply Hkeep. rewrite Hcl. apply add_token_elem.
Qed.

Lemma slide_class_stays_witness :
  ∃ e', elements (run [Tick; Click [3; 0]; Tick]
                      (click_listener 0 click_on_back_label sample_page).2) !! 0
        = Some e'
    ∧ slide_class sample_back_link ∈ classList e'.
Proof.
  apply (slide_class_stays 0 click_on_back_label sample_page
           sample_back_link "/input" sample_shell).
  - unfold intercepted. split_and!; try reflexivity. discriminate.
  - reflexivity.
Defined.

Lemma add_token_twice c (tokens : list string) :
  add_token c (add_token c tokens) = add_token c tokens.
Proof.
  unfold add_token at 1. by rewrite decide_True by apply add_token_elem.
Qed.

Lemma intercepted_grown p p' event link url :
  Forall2 grown_from (elements p) (elements p') →
  intercepted p event link url →
  ∃ link', intercepted p' event link' url
    ∧ dataset_transition link' = dataset_transition link.
Proof.
  intros Hgrown (Hlink & Hhref & Hne & Hhttp).
  pose proof (closest_grown _ _ (target_path event) Hgrown) as Hc.
  rewrite Hlink in Hc. inversion Hc as [? link' (_ & Ha & _) |]; subst.
  exists link'. unfold intercepted, getAttribute, dataset_transition in *.
  rewrite Ha. by split_and!.
Qed.

(** X14. Nothing guards against a second click: when a click that was taken
    over is repeated before any time has passed, the second run adds no class
    (the shell has it already) and sets a second timer, so two navigations to
    the same address are pending. *)
Theorem second_click_sets_second_timer shell event p link url :
  intercepted p event link url →
  let p1 := (click_listener shell event p).2 in
  let p2 := (click_listener shell event p1).2 in
  elements p2 = elements p1
  ∧ timers p2
    = timers p ++ [navigation_timer p url; navigation_timer p url].
Proof.
  intros Hint p1 p2.
  assert (Hp1 : p1 = setTimeout (SetLocationHref url) 180
                       (classList_add shell (slide_class link) p)).
  { unfold p1. by rewrite (click_listener_intercepted _ _ _ _ _ Hint). }
  destruct (intercepted_grown p p1 event link url) as (link1 & Hint1 & Hty);
    [apply click_listener_grown | done |].
  assert (Hp2 : p2 = setTimeout (SetLocationHref url) 180
                       (classList_add shell (slide_class link) p1)).
  { unfold p2. rewrite (click_listener_intercepted _ _ _ _ _ Hint1).
    unfold slide_class. by rewrite Hty. }
  rewrite Hp2, Hp1. simpl. split.
  - rewrite list_alter_alter_eq. apply list_alter_ext; [|done].
    intros x _. simpl. by rewrite add_token_twice.
  - unfold navigation_timer. by rewrite <- app_assoc.
Qed.

Lemma second_click_sets_second_timer_witness :
  let p1 := (click_listener 0 click_on_back_label sample_page).2 in
  let p2 := (click_listener 0 click_on_back_label p1).2 in
  elements p2 = elements p1
  ∧ timers p2
    = timers sample_page
      ++ [navigation_timer sample_page "/input";
          navigation_timer sample_page "/input"].
Proof.
  apply (second_click_sets_second_timer 0 click_on_back_label sample_page
           sample_back_link "/input").
  unfold intercepted. split_and!; try reflexivity. discriminate.
Defined.

(** *** Counting navigations *)

Lemma run_callbacks_length now (due_timers : list Timer) log :
  length (foldl (λ log t, run_callback now (callback t) log) log due_timers)
  = length log + length due_timers.
Proof.
  revert log. induction due_timers as [|t ts IH]; intros log; simpl; [lia|].
  rewrite IH. destruct (callback t). simpl. rewrite length_app. simpl. lia.
Qed.

Lemma due_split_length now (ts : list Timer) :
  length (filter (λ t, now < due t) ts)
  + length (filter (λ t, due t ≤ now) ts)
  = length ts.
Proof.
  induction ts as [|t ts IH]; [done|].
  destruct (decide (now < due t)) as [Hlater|Hdue].
  - rewrite filter_cons_True by done.
    rewrite (filter_cons_False (λ t, due t ≤ now)) by (simpl; lia).
    simpl. lia.
  - rewrite filter_cons_False by done.
    rewrite (filter_cons_True (λ t, due t ≤ now)) by (simpl; lia).
    simpl. lia.
Qed.

Lemma step_count shell e p :
  body_click_listeners p = [shell] →
  body_click_listeners (step e p) = [shell]
  ∧ length (timers (step e p)) + length (location_assignments (step e p))
    = length (timers p) + length (location_assignments p)
      + (if is_taken_over (elements p) e then 1 else 0).
Proof.
  intros Hb. destruct e as [path|]; simpl.
  - unfold dispatch_click. rewrite Hb. simpl.
    unfold click_listener, takes_over. simpl.
    destruct (closest (elements p) path) as [link|];
      [|simpl; split; [done | lia]].
    destruct (getAttribute link "href") as [url|];
      [|simpl; split; [done | lia]].
    destruct (bool_decide (url = EmptyString) || startsWith url "http");
      simpl; [split; [done | lia]|].
    destruct (bool_decide (dataset_transition link = Some "back")); simpl;
      (split; [done|]); rewrite length_app; simpl; lia.
  - split; [done|]. rewrite run_callbacks_length.
    pose proof (due_split_length (S (clock p)) (timers p)). lia.
Qed.

(** X15. On a page with the one listener the script attaches, every click
    that is taken over leads to exactly one navigation and nothing else leads
    to any: at any moment, the timers pending plus the assignments made to
    the location are those there were at the start, plus one for each click
    taken over since. *)
Theorem one_navigation_per_click_taken_over shell (es : list PageEvent)
    (p : Page) :
  body_click_listeners p = [shell] →
  length (timers (run es p)) + length (location_assignments (run es p))
  = length (timers p) + length (location_assignments p)
    + length (taken_over_clicks (elements p) es).
Proof.
  intros Hb.
  assert (Hgen : ∀ q, body_click_listeners q = [shell] →
            Forall2 grown_from (elements p) (elements q) →
            length (timers (run es q)) + length (location_assignments (run es q))
            = length (timers q) + length (location_assignments q)
              + length (taken_over_clicks (elements p) es)).
  { unfold run, taken_over_clicks.
    induction es as [|e es IH]; intros q Hq Hgrown; simpl; [lia|].
    destruct (step_count shell e q Hq) as [Hq' Hcount].
    rewrite IH; [|done|].
    - assert (Hsame : is_taken_over (elements q) e
                      = is_taken_over (elements p) e).
      { destruct e as [path|]; [|done]. by apply takes_over_grown. }
      rewrite Hsame in Hcount. rewrite filter_cons.
      destruct (is_taken_over (elements p) e) eqn:Htaken.
      + rewrite decide_True by done. simpl. lia.
      + rewrite decide_False by done. lia.
    - eapply elements_grown_trans; [done | apply step_grown]. }
  apply Hgen; [done | apply elements_grown_refl].
Qed.

Lemma one_navigation_per_click_taken_over_witness :
  length (timers (run [Click [2; 1; 0]; Tick; Click [4; 0]; Click [3; 0]]
                      sample_page))
  + length (location_assignments
              (run [Click [2; 1; 0]; Tick; Click [4; 0]; Click [3; 0]]
                   sample_page))
  = length (timers sample_page) + length (location_assignments sample_page)
    + length (taken_over_clicks (elements sample_page)
                [Click [2; 1; 0]; Tick; Click [4; 0]; Click [3; 0]]).
Proof.
  apply (one_navigation_per_click_taken_over 0
           [Click [2; 1; 0]; Tick; Click [4; 0]; Click [3; 0]] sample_page).
  reflexivity.
Defined.

End TransitionMore.
